(** * PBLotSize: the futures lot-size calculator of [src/App.tsx]

    The component keeps five pieces of state (instrument, stop-loss text,
    risk text, half-risk flag, full-risk snapshot), derives a bundle of
    sizing figures from the first three with [useMemo], and changes the last
    three through three event handlers.  The file holds two variants of the
    component, the TypeScript one (lines 1-262) and the plain JavaScript one
    (lines 263-501).

    Numbers are ECMAScript Numbers, that is IEEE 754 binary64 values; they are
    modelled by [spec_float] with [prec = 53] and [emax = 1024], whose
    operations round to nearest, ties to even.  Program text is modelled by
    [string]; a character stands for one code unit below 256. *)

From Stdlib Require Import ZArith Bool List String Ascii Lia.
From Stdlib Require Import DecimalString.
From Stdlib Require Import Floats.SpecFloat.
Import ListNotations.

Local Open Scope string_scope.
Local Open Scope Z_scope.

(** ** The Number type and the built-ins the component calls *)

Module JS.

Definition number : Type := spec_float.

Definition prec : Z := 53.
Definition emax : Z := 1024.

Definition NaN : number := S754_nan.
Definition Infinity : number := S754_infinity false.
Definition zero : number := S754_zero false.

(** [x * y] and [x / y]. *)
Definition mul (x y : number) : number := SFmul prec emax x y.
Definition div (x y : number) : number := SFdiv prec emax x y.
Definition sub (x y : number) : number := SFsub prec emax x y.

(** [x <= y], [x < y] and [x > y]; each is false when an operand is NaN. *)
Definition le (x y : number) : bool := SFleb x y.
Definition lt (x y : number) : bool := SFltb x y.
Definition gt (x y : number) : bool := SFltb y x.

(** Structural equality of two numbers (the same value, zeros told apart). *)
Definition same (x y : number) : bool :=
  match x, y with
  | S754_zero s, S754_zero t => Bool.eqb s t
  | S754_infinity s, S754_infinity t => Bool.eqb s t
  | S754_nan, S754_nan => true
  | S754_finite s m e, S754_finite t n f =>
      Bool.eqb s t && Pos.eqb m n && Z.eqb e f
  | _, _ => false
  end.

(** The global functions [isNaN] and [isFinite] on a Number argument. *)
Definition isNaN (x : number) : bool :=
  match x with S754_nan => true | _ => false end.

Definition isFinite (x : number) : bool :=
  match x with S754_nan | S754_infinity _ => false | _ => true end.

(** [ToBoolean] on a Number: false for +0, -0 and NaN. *)
Definition ToBoolean (x : number) : bool :=
  match x with S754_zero _ | S754_nan => false | _ => true end.

(** [x || y] on Numbers. *)
Definition or_else (x y : number) : number := if ToBoolean x then x else y.

(** The Number nearest to the integer [z], with sign [s] when [z = 0]. *)
Definition of_Z (s : bool) (z : Z) : number := binary_normalize prec emax z 0 s.

(** [Math.floor] and [Math.ceil]: a finite number with a non-negative exponent
    is an integer already; otherwise the magnitude [m * 2^e] is cut at the
    binary point and moved away from zero when the direction asks for it. *)
Definition Math_floor (x : number) : number :=
  match x with
  | S754_finite s m e =>
      if 0 <=? e then x
      else
        let q := Z.shiftr (Zpos m) (- e) in
        let exact := Zpos m =? Z.shiftl q (- e) in
        if s then of_Z true (- (if exact then q else q + 1))
        else of_Z false q
  | _ => x
  end.

Definition Math_ceil (x : number) : number :=
  match x with
  | S754_finite s m e =>
      if 0 <=? e then x
      else
        let q := Z.shiftr (Zpos m) (- e) in
        let exact := Zpos m =? Z.shiftl q (- e) in
        if s then of_Z true (- q)
        else of_Z false (if exact then q else q + 1)
  | _ => x
  end.

(** *** Decimal text to Number

    [round_quotient s n d] is the Number nearest to [n / d] (sign [s]), and
    [of_decimal s m e] the Number nearest to [m * 10^e], ties to even.  The
    exact value is rounded, however many digits the text has, as engines do
    (ECMA-262 also lets an engine drop the digits after the twentieth). *)
Definition round_quotient (s : bool) (n d : Z) : number :=
  let '(mz, ez, lz) := SFdiv_core_binary prec emax n 0 d 0 in
  binary_round_aux prec emax s mz ez lz.

Definition of_decimal (s : bool) (m e : Z) : number :=
  if m =? 0 then S754_zero s
  else if 0 <=? e then binary_normalize prec emax (cond_Zopp s (m * 10 ^ e)) 0 s
  else round_quotient s m (10 ^ (- e)).

Definition code (c : ascii) : Z := Z.of_nat (nat_of_ascii c).

Definition is_digit (c : ascii) : bool := (48 <=? code c) && (code c <=? 57).

(** White space and line terminators among the code units below 256. *)
Definition is_white_space (c : ascii) : bool :=
  let n := code c in
  ((9 <=? n) && (n <=? 13)) || (n =? 32) || (n =? 160).

Fixpoint trim_start (s : string) : string :=
  match s with
  | String c r => if is_white_space c then trim_start r else s
  | EmptyString => s
  end.

(** The longest run of decimal digits at the start of [s]: its value on top
    of [acc], its length on top of [cnt], and the text after it. *)
Fixpoint take_digits (s : string) (acc cnt : Z) : Z * Z * string :=
  match s with
  | String c r =>
      if is_digit c then take_digits r (10 * acc + (code c - 48)) (cnt + 1)
      else (acc, cnt, s)
  | EmptyString => (acc, cnt, s)
  end.

Definition digits_value (s : string) : Z :=
  let '(v, _, _) := take_digits s 0 0 in v.

(** The value of the exponent part at the start of [s]; an indicator that no
    digit follows is not part of the literal, and counts for 0 as well. *)
Definition exponent_part (s : string) : Z :=
  match s with
  | String c r =>
      if (c =? "e")%char || (c =? "E")%char then
        match r with
        | String "+"%char r' => digits_value r'
        | String "-"%char r' => - digits_value r'
        | _ => digits_value r
        end
      else 0
  | EmptyString => 0
  end.

(** The longest prefix of [s] that is a [StrUnsignedDecimalLiteral], as a
    Number of sign [sg]; NaN when there is none. *)
Definition unsigned_literal (sg : bool) (s : string) : number :=
  if prefix "Infinity" s then S754_infinity sg
  else
    let '(ip, ni, r1) := take_digits s 0 0 in
    match r1 with
    | String "."%char r2 =>
        let '(fp, nf, r3) := take_digits r2 0 0 in
        if (ni =? 0) && (nf =? 0) then NaN
        else of_decimal sg (ip * 10 ^ nf + fp) (exponent_part r3 - nf)
    | _ => if ni =? 0 then NaN else of_decimal sg ip (exponent_part r1)
    end.

(** [parseFloat]. *)
Definition parseFloat (s : string) : number :=
  match trim_start s with
  | String "+"%char r => unsigned_literal false r
  | String "-"%char r => unsigned_literal true r
  | t => unsigned_literal false t
  end.

(** *** Number to decimal text ([Number.prototype.toString], radix 10)

    For a positive finite [x] the digits are the integers [n], [k] and [s]
    with [10^(k-1) <= s < 10^k] and [s * 10^(n-k)] rounding to [x], for the
    least [k]; of two such [s] the one nearer to [x] is taken, the even one
    when they are as near. *)

(** The value [m * 2^e] as a fraction. *)
Definition fraction_of (m : positive) (e : Z) : Z * Z :=
  if 0 <=? e then (Zpos m * 2 ^ e, 1) else (Zpos m, 2 ^ (- e)).

(** The fraction [nd] divided by [10^p]. *)
Definition scale10 (nd : Z * Z) (p : Z) : Z * Z :=
  let '(n, d) := nd in
  if 0 <=? p then (n, d * 10 ^ p) else (n * 10 ^ (- p), d).

(** The least [n], from [n] on, with [nd < 10^n]. *)
Fixpoint decimal_exponent (fuel : nat) (nd : Z * Z) (n : Z) : Z :=
  match fuel with
  | O => n
  | S fuel' =>
      let '(a, b) := scale10 nd n in
      if a <? b then n else decimal_exponent fuel' nd (n + 1)
  end.

(** The digits of length [k] for [x], when there are some. *)
Definition digits_of_length (x : number) (nd : Z * Z) (n0 k : Z)
  : option (Z * Z) :=
  let '(a, b) := scale10 nd (n0 - k) in
  let lo := a / b in
  let r := a mod b in
  let hi := if lo + 1 =? 10 ^ k then (10 ^ (k - 1), n0 + 1) else (lo + 1, n0) in
  let ok_lo := same x (of_decimal false lo (n0 - k)) in
  let ok_hi := same x (of_decimal false (fst hi) (snd hi - k)) in
  match ok_lo, ok_hi with
  | true, true =>
      if (2 * r <? b) || ((2 * r =? b) && Z.even lo) then Some (lo, n0) else Some hi
  | true, false => Some (lo, n0)
  | false, true => Some hi
  | false, false => None
  end.

Fixpoint shortest_digits (fuel : nat) (x : number) (nd : Z * Z) (n0 k : Z)
  : Z * Z * Z :=
  match fuel with
  | O => (fst (scale10 nd (n0 - k)) / snd (scale10 nd (n0 - k)), k, n0)
  | S fuel' =>
      match digits_of_length x nd n0 k with
      | Some (s, n) => (s, k, n)
      | None => shortest_digits fuel' x nd n0 (k + 1)
      end
  end.

Definition string_of_Z (z : Z) : string :=
  NilZero.string_of_uint (N.to_uint (Z.to_N z)).

Fixpoint zeros (n : nat) : string :=
  match n with
  | O => ""
  | S n' => String "0"%char (zeros n')
  end.

(** The text of the digits [s] (there are [k] of them) and the exponent [n]. *)
Definition format_digits (s k n : Z) : string :=
  let ds := string_of_Z s in
  if (-5 <=? n) && (n <=? 21) then
    if k <=? n then ds ++ zeros (Z.to_nat (n - k))
    else if 0 <? n then
      substring 0 (Z.to_nat n) ds ++ "." ++ substring (Z.to_nat n) (Z.to_nat (k - n)) ds
    else "0." ++ zeros (Z.to_nat (- n)) ++ ds
  else
    let c := if 0 <=? n - 1 then "+" else "-" in
    let e := string_of_Z (Z.abs (n - 1)) in
    if k =? 1 then ds ++ "e" ++ c ++ e
    else substring 0 1 ds ++ "." ++ substring 1 (Z.to_nat (k - 1)) ds ++ "e" ++ c ++ e.

Definition Number_toString (x : number) : string :=
  match x with
  | S754_nan => "NaN"
  | S754_zero _ => "0"
  | S754_infinity s => if s then "-Infinity" else "Infinity"
  | S754_finite s m e =>
      let nd := fraction_of m e in
      let n0 := decimal_exponent 640 nd (-323) in
      let '(d, k, n) := shortest_digits 17 (S754_finite false m e) nd n0 1 in
      (if s then "-" else "") ++ format_digits d k n
  end.

End JS.

(** ** The instrument table (lines 25-32 and 72-79; 302-309) *)

Import JS.

Inductive InstrumentKey : Type := NQ | MNQ | ES | MES | GC | MGC.

Record InstrumentDetails : Type := {
  name : string;
  tickValue : number;
  ticksPerPoint : number
}.

(** The Number a decimal literal [m * 10^e] of the source denotes. *)
Definition lit (m e : Z) : number := of_decimal false m e.

Definition INSTRUMENT_DATA (k : InstrumentKey) : InstrumentDetails :=
  match k with
  | NQ => {| name := "NQ"; tickValue := lit 5 0; ticksPerPoint := lit 4 0 |}
  | MNQ => {| name := "MNQ"; tickValue := lit 5 (-1); ticksPerPoint := lit 4 0 |}
  | ES => {| name := "ES"; tickValue := lit 125 (-1); ticksPerPoint := lit 4 0 |}
  | MES => {| name := "MES"; tickValue := lit 125 (-2); ticksPerPoint := lit 4 0 |}
  | GC => {| name := "GC"; tickValue := lit 10 0; ticksPerPoint := lit 10 0 |}
  | MGC => {| name := "MGC"; tickValue := lit 1 0; ticksPerPoint := lit 10 0 |}
  end.

(** A key at run time is the text of its literal. *)
Definition key_text (k : InstrumentKey) : string :=
  match k with
  | NQ => "NQ"
  | MNQ => "MNQ"
  | ES => "ES"
  | MES => "MES"
  | GC => "GC"
  | MGC => "MGC"
  end.

Definition InstrumentKey_eqb (a b : InstrumentKey) : bool :=
  String.eqb (key_text a) (key_text b).

(** ** The bundle [calculations] holds *)

Record Calculations : Type := {
  rawLotSize : number;
  floorLotSize : number;
  riskForFloor : number;
  ceilLotSize : number;
  riskForCeil : number;
  riskForOneContract : number
}.

(** ** The TypeScript variant (lines 82-116)

    [calculations] is the function the specification calls [computeSizing]:
    from the instrument key and the two texts to the bundle of figures. *)

Module Typed.

(** The body of the memoized function once the two texts are parsed. *)
Definition sizing (instrument : InstrumentKey) (slPoints currentRiskAmount : number)
  : Calculations :=
  let tickValue := tickValue (INSTRUMENT_DATA instrument) in
  let ticksPerPoint := ticksPerPoint (INSTRUMENT_DATA instrument) in
  if le slPoints zero || le currentRiskAmount zero then
    let riskPerContract :=
      if gt slPoints zero then mul (mul slPoints ticksPerPoint) tickValue else zero in
    {| rawLotSize := zero;
       floorLotSize := zero;
       riskForFloor := zero;
       ceilLotSize := zero;
       riskForCeil := zero;
       riskForOneContract := riskPerContract |}
  else
    let riskPerContract := mul (mul slPoints ticksPerPoint) tickValue in
    let rawLotSize := div currentRiskAmount riskPerContract in
    let floorLotSize := Math_floor rawLotSize in
    let riskForFloor := mul floorLotSize riskPerContract in
    let ceilLotSize := Math_ceil rawLotSize in
    let riskForCeil := mul ceilLotSize riskPerContract in
    {| rawLotSize := if isNaN rawLotSize then zero else rawLotSize;
       floorLotSize := if isNaN floorLotSize then zero else floorLotSize;
       riskForFloor := if isNaN riskForFloor then zero else riskForFloor;
       ceilLotSize := if isNaN ceilLotSize then zero else ceilLotSize;
       riskForCeil := if isNaN riskForCeil then zero else riskForCeil;
       riskForOneContract := riskPerContract |}.

Definition calculations (instrument : InstrumentKey) (stopLossPoints riskAmount : string)
  : Calculations :=
  let slPoints := or_else (parseFloat stopLossPoints) zero in
  let currentRiskAmount := or_else (parseFloat riskAmount) zero in
  sizing instrument slPoints currentRiskAmount.

End Typed.

(** ** The JavaScript variant (lines 312-350) *)

Module Untyped.

Definition sizing (instrument : InstrumentKey) (slPoints currentRiskAmount : number)
  : Calculations :=
  let tickValue := tickValue (INSTRUMENT_DATA instrument) in
  let ticksPerPoint := ticksPerPoint (INSTRUMENT_DATA instrument) in
  if le slPoints zero || le currentRiskAmount zero then
    let riskPerContract :=
      if gt slPoints zero then mul (mul slPoints ticksPerPoint) tickValue else zero in
    {| rawLotSize := zero;
       floorLotSize := zero;
       riskForFloor := zero;
       ceilLotSize := zero;
       riskForCeil := zero;
       riskForOneContract := riskPerContract |}
  else
    let riskPerContract := mul (mul slPoints ticksPerPoint) tickValue in
    let rawLotSize := div currentRiskAmount riskPerContract in
    let floorLotSize := Math_floor rawLotSize in
    let riskForFloor := mul floorLotSize riskPerContract in
    let ceilLotSize := Math_ceil rawLotSize in
    let riskForCeil := mul ceilLotSize riskPerContract in
    {| rawLotSize :=
         if isNaN rawLotSize || negb (isFinite rawLotSize) then zero else rawLotSize;
       floorLotSize :=
         if isNaN floorLotSize || negb (isFinite floorLotSize) then zero else floorLotSize;
       riskForFloor :=
         if isNaN riskForFloor || negb (isFinite riskForFloor) then zero else riskForFloor;
       ceilLotSize :=
         if isNaN ceilLotSize || negb (isFinite ceilLotSize) then zero else ceilLotSize;
       riskForCeil :=
         if isNaN riskForCeil || negb (isFinite riskForCeil) then zero else riskForCeil;
       riskForOneContract := riskPerContract |}.

Definition calculations (instrument : InstrumentKey) (stopLossPoints riskAmount : string)
  : Calculations :=
  let slPoints := or_else (parseFloat stopLossPoints) zero in
  let currentRiskAmount := or_else (parseFloat riskAmount) zero in
  sizing instrument slPoints currentRiskAmount.

End Untyped.

(** ** Component state and event handlers (lines 65-69 and 119-140; the
    JavaScript variant has the same text at lines 295-299 and 353-374) *)

Record State : Type := {
  instrument : InstrumentKey;
  stopLossPoints : string;
  riskAmount : string;
  isHalfRisk : bool;
  fullRiskValue : string
}.

Definition initial : State :=
  {| instrument := NQ;
     stopLossPoints := "10";
     riskAmount := "100";
     isHalfRisk := false;
     fullRiskValue := "100" |}.

Definition setInstrument (k : InstrumentKey) (st : State) : State :=
  {| instrument := k;
     stopLossPoints := stopLossPoints st;
     riskAmount := riskAmount st;
     isHalfRisk := isHalfRisk st;
     fullRiskValue := fullRiskValue st |}.

Definition setStopLossPoints (v : string) (st : State) : State :=
  {| instrument := instrument st;
     stopLossPoints := v;
     riskAmount := riskAmount st;
     isHalfRisk := isHalfRisk st;
     fullRiskValue := fullRiskValue st |}.

Definition handleRiskAmountChange (value : string) (st : State) : State :=
  {| instrument := instrument st;
     stopLossPoints := stopLossPoints st;
     riskAmount := value;
     isHalfRisk := isHalfRisk st;
     fullRiskValue := if negb (isHalfRisk st) then value else fullRiskValue st |}.

Definition handleHalfRisk (st : State) : State :=
  if negb (isHalfRisk st) then
    {| instrument := instrument st;
       stopLossPoints := stopLossPoints st;
       riskAmount := Number_toString (div (parseFloat (riskAmount st)) (lit 2 0));
       isHalfRisk := true;
       fullRiskValue := riskAmount st |}
  else st.

Definition handleFullRisk (st : State) : State :=
  if isHalfRisk st then
    {| instrument := instrument st;
       stopLossPoints := stopLossPoints st;
       riskAmount := fullRiskValue st;
       isHalfRisk := false;
       fullRiskValue := fullRiskValue st |}
  else st.

(** What the user can do to the component. *)
Inductive Event : Type :=
  | SelectInstrument (k : InstrumentKey)
  | EditStopLoss (v : string)
  | EditRisk (v : string)
  | ClickHalfR
  | ClickFullR.

Definition handle (e : Event) (st : State) : State :=
  match e with
  | SelectInstrument k => setInstrument k st
  | EditStopLoss v => setStopLossPoints v st
  | EditRisk v => handleRiskAmountChange v st
  | ClickHalfR => handleHalfRisk st
  | ClickFullR => handleFullRisk st
  end.

(** *** [useMemo] (lines 82 and 116)

    The hook keeps the last dependency array with the value computed for
    it, and computes again only when a dependency changed. *)

Record Memo : Type := {
  memo_deps : string * string * InstrumentKey;
  memo_value : Calculations
}.

Definition deps_eqb (a b : string * string * InstrumentKey) : bool :=
  let '(a1, a2, a3) := a in
  let '(b1, b2, b3) := b in
  String.eqb a1 b1 && String.eqb a2 b2 && InstrumentKey_eqb a3 b3.

Definition useMemo (compute : unit -> Calculations)
    (deps : string * string * InstrumentKey) (cell : option Memo) : Memo :=
  match cell with
  | Some m =>
      if deps_eqb (memo_deps m) deps then m
      else {| memo_deps := deps; memo_value := compute tt |}
  | None => {| memo_deps := deps; memo_value := compute tt |}
  end.

(** One render of the TypeScript component: the hook cell after it; its
    [memo_value] is the [calculations] the render displays. *)
Definition render (st : State) (cell : option Memo) : Memo :=
  useMemo
    (fun _ => Typed.calculations (instrument st) (stopLossPoints st) (riskAmount st))
    (stopLossPoints st, riskAmount st, instrument st)
    cell.

(** The component mounted and then driven by [events], rendering after
    each: the state and the hook cell at the end. *)
Fixpoint run (events : list Event) (st : State) (cell : Memo) : State * Memo :=
  match events with
  | [] => (st, cell)
  | e :: rest =>
      let st' := handle e st in
      run rest st' (render st' (Some cell))
  end.

Definition session (events : list Event) : State * Memo :=
  run events initial (render initial None).

(** ** The memoized function as it runs (lines 72-79 and 82-116; 302-309 and
    312-350)

    The arrow function handed to [useMemo] takes no argument: it reads the
    variables of [App] it closes over, looks the instrument up in the table
    object by its key, and takes the entry apart.  Here it runs as a
    computation over that scope which completes normally or throws, so that
    what it reads, what it leaves behind and whether it returns are there to
    be stated. *)

Module Script.

Inductive Error : Type := TypeError.

Inductive Completion (A : Type) : Type :=
  | Normal (a : A)
  | Throw (e : Error).

Arguments Normal {A} a.
Arguments Throw {A} e.

(** The variables of [App] in scope of the function (lines 65-79); the table
    object by its own properties, in the order of the literal. *)
Record Scope : Type := {
  instrument : string;
  stopLossPoints : string;
  riskAmount : string;
  isHalfRisk : bool;
  fullRiskValue : string;
  INSTRUMENT_DATA : list (string * InstrumentDetails)
}.

(** A computation: from the scope to a completion and the scope it leaves. *)
Definition Run (A : Type) : Type := Scope -> Completion A * Scope.

Definition ret {A : Type} (a : A) : Run A := fun sc => (Normal a, sc).

Definition bind {A B : Type} (c : Run A) (f : A -> Run B) : Run B :=
  fun sc =>
    match c sc with
    | (Normal a, sc') => f a sc'
    | (Throw e, sc') => (Throw e, sc')
    end.

Definition read {A : Type} (variable : Scope -> A) : Run A :=
  fun sc => (Normal (variable sc), sc).

Definition throw {A : Type} (e : Error) : Run A := fun sc => (Throw e, sc).

Notation "x <- c ;; k" := (bind c (fun x => k))
  (at level 61, c at next level, right associativity).

(** The object literal of lines 72-79; no key is written twice. *)
Definition table : list (string * InstrumentDetails) :=
  [ ("NQ", {| name := "NQ"; tickValue := lit 5 0; ticksPerPoint := lit 4 0 |});
    ("MNQ", {| name := "MNQ"; tickValue := lit 5 (-1); ticksPerPoint := lit 4 0 |});
    ("ES", {| name := "ES"; tickValue := lit 125 (-1); ticksPerPoint := lit 4 0 |});
    ("MES", {| name := "MES"; tickValue := lit 125 (-2); ticksPerPoint := lit 4 0 |});
    ("GC", {| name := "GC"; tickValue := lit 10 0; ticksPerPoint := lit 10 0 |});
    ("MGC", {| name := "MGC"; tickValue := lit 1 0; ticksPerPoint := lit 10 0 |}) ].

(** What [object[key]] evaluates to on a table object: an entry of its own,
    a member of [Object.prototype], which every object literal inherits
    from, or [undefined]. *)
Inductive Property : Type :=
  | Own (entry : InstrumentDetails)
  | Inherited
  | Undefined.

(** The property names of [Object.prototype] (ECMA-262, 20.1.3 and B.2.2). *)
Definition Object_prototype : list string :=
  [ "constructor"; "hasOwnProperty"; "isPrototypeOf"; "propertyIsEnumerable";
    "toLocaleString"; "toString"; "valueOf"; "__proto__";
    "__defineGetter__"; "__defineSetter__"; "__lookupGetter__"; "__lookupSetter__" ].

Fixpoint own (object : list (string * InstrumentDetails)) (key : string)
  : option InstrumentDetails :=
  match object with
  | [] => None
  | (k, entry) :: rest => if String.eqb k key then Some entry else own rest key
  end.

Definition Get (object : list (string * InstrumentDetails)) (key : string) : Property :=
  match own object key with
  | Some entry => Own entry
  | None => if existsb (String.eqb key) Object_prototype then Inherited else Undefined
  end.

(** [const { tickValue, ticksPerPoint } = value]: a [TypeError] when the
    value is [undefined]; a property the value does not have is bound to
    [undefined], here [None]. *)
Definition destructure (value : Property) : Run (option number * option number) :=
  match value with
  | Own entry => ret (Some (tickValue entry), Some (ticksPerPoint entry))
  | Inherited => ret (None, None)
  | Undefined => throw TypeError
  end.

(** The Number an operand of [*] stands for: [undefined] counts as NaN. *)
Definition ToNumber (operand : option number) : number :=
  match operand with
  | Some x => x
  | None => NaN
  end.

(** The function of the TypeScript variant, lines 82-116. *)
Module Typed.

Definition calculations : Run Calculations :=
  stopLossPoints <- read stopLossPoints ;;
  let slPoints := or_else (parseFloat stopLossPoints) zero in
  riskAmount <- read riskAmount ;;
  let currentRiskAmount := or_else (parseFloat riskAmount) zero in
  INSTRUMENT_DATA <- read INSTRUMENT_DATA ;;
  instrument <- read instrument ;;
  fields <- destructure (Get INSTRUMENT_DATA instrument) ;;
  let tickValue := ToNumber (fst fields) in
  let ticksPerPoint := ToNumber (snd fields) in
  if le slPoints zero || le currentRiskAmount zero then
    let riskPerContract :=
      if gt slPoints zero then mul (mul slPoints ticksPerPoint) tickValue else zero in
    ret {| rawLotSize := zero;
           floorLotSize := zero;
           riskForFloor := zero;
           ceilLotSize := zero;
           riskForCeil := zero;
           riskForOneContract := riskPerContract |}
  else
    let riskPerContract := mul (mul slPoints ticksPerPoint) tickValue in
    let rawLotSize := div currentRiskAmount riskPerContract in
    let floorLotSize := Math_floor rawLotSize in
    let riskForFloor := mul floorLotSize riskPerContract in
    let ceilLotSize := Math_ceil rawLotSize in
    let riskForCeil := mul ceilLotSize riskPerContract in
    ret {| rawLotSize := if isNaN rawLotSize then zero else rawLotSize;
           floorLotSize := if isNaN floorLotSize then zero else floorLotSize;
           riskForFloor := if isNaN riskForFloor then zero else riskForFloor;
           ceilLotSize := if isNaN ceilLotSize then zero else ceilLotSize;
           riskForCeil := if isNaN riskForCeil then zero else riskForCeil;
           riskForOneContract := riskPerContract |}.

End Typed.

(** The function of the JavaScript variant, lines 312-350. *)
Module Untyped.

Definition calculations : Run Calculations :=
  stopLossPoints <- read stopLossPoints ;;
  let slPoints := or_else (parseFloat stopLossPoints) zero in
  riskAmount <- read riskAmount ;;
  let currentRiskAmount := or_else (parseFloat riskAmount) zero in
  INSTRUMENT_DATA <- read INSTRUMENT_DATA ;;
  instrument <- read instrument ;;
  fields <- destructure (Get INSTRUMENT_DATA instrument) ;;
  let tickValue := ToNumber (fst fields) in
  let ticksPerPoint := ToNumber (snd fields) in
  if le slPoints zero || le currentRiskAmount zero then
    let riskPerContract :=
      if gt slPoints zero then mul (mul slPoints ticksPerPoint) tickValue else zero in
    ret {| rawLotSize := zero;
           floorLotSize := zero;
           riskForFloor := zero;
           ceilLotSize := zero;
           riskForCeil := zero;
           riskForOneContract := riskPerContract |}
  else
    let riskPerContract := mul (mul slPoints ticksPerPoint) tickValue in
    let rawLotSize := div currentRiskAmount riskPerContract in
    let floorLotSize := Math_floor rawLotSize in
    let riskForFloor := mul floorLotSize riskPerContract in
    let ceilLotSize := Math_ceil rawLotSize in
    let riskForCeil := mul ceilLotSize riskPerContract in
    ret {| rawLotSize :=
             if isNaN rawLotSize || negb (isFinite rawLotSize) then zero else rawLotSize;
           floorLotSize :=
             if isNaN floorLotSize || negb (isFinite floorLotSize) then zero
             else floorLotSize;
           riskForFloor :=
             if isNaN riskForFloor || negb (isFinite riskForFloor) then zero
             else riskForFloor;
           ceilLotSize :=
             if isNaN ceilLotSize || negb (isFinite ceilLotSize) then zero
             else ceilLotSize;
           riskForCeil :=
             if isNaN riskForCeil || negb (isFinite riskForCeil) then zero
             else riskForCeil;
           riskForOneContract := riskPerContract |}.

End Untyped.

End Script.

(** The scope [App] sets up on a render in state [st]: the five state
    variables, the key as its text, and the table built from its literal. *)
Definition scope_of (st : State) : Script.Scope :=
  {| Script.instrument := key_text (instrument st);
     Script.stopLossPoints := stopLossPoints st;
     Script.riskAmount := riskAmount st;
     Script.isHalfRisk := isHalfRisk st;
     Script.fullRiskValue := fullRiskValue st;
     Script.INSTRUMENT_DATA := Script.table |}.

(** ** Vocabulary of the statements *)

(** [slPoints * ticksPerPoint * tickValue], as lines 88 and 99 compute it. *)
Definition riskPerContract_of (i : InstrumentKey) (slPoints : number) : number :=
  mul (mul slPoints (ticksPerPoint (INSTRUMENT_DATA i))) (tickValue (INSTRUMENT_DATA i)).

(** The bundle of the first [return]. *)
Definition degenerate (riskPerContract : number) : Calculations :=
  {| rawLotSize := zero;
     floorLotSize := zero;
     riskForFloor := zero;
     ceilLotSize := zero;
     riskForCeil := zero;
     riskForOneContract := riskPerContract |}.

(** The guards the two variants put on each figure of the second [return]. *)
Definition nan_to_zero (v : number) : number := if isNaN v then zero else v.

Definition non_finite_to_zero (v : number) : number :=
  if isNaN v || negb (isFinite v) then zero else v.

(** The bundle of the second [return], for a guard. *)
Definition regular (guard : number -> number) (riskPerContract rb : number)
  : Calculations :=
  let raw := div rb riskPerContract in
  {| rawLotSize := guard raw;
     floorLotSize := guard (Math_floor raw);
     riskForFloor := guard (mul (Math_floor raw) riskPerContract);
     ceilLotSize := guard (Math_ceil raw);
     riskForCeil := guard (mul (Math_ceil raw) riskPerContract);
     riskForOneContract := riskPerContract |}.

(** A returned figure [r] agrees with the value [v] of its formula: it is [v]
    when [v] is finite and 0 when [v] is NaN. *)
Definition agrees (r v : number) : Prop :=
  (isFinite v = true -> r = v) /\ (isNaN v = true -> r = zero).

(** The five figures are exactly the values of their formulas. *)
Definition exact_formulas (c : Calculations) (rb : number) : Prop :=
  rawLotSize c = div rb (riskForOneContract c) /\
  floorLotSize c = Math_floor (rawLotSize c) /\
  ceilLotSize c = Math_ceil (rawLotSize c) /\
  riskForFloor c = mul (floorLotSize c) (riskForOneContract c) /\
  riskForCeil c = mul (ceilLotSize c) (riskForOneContract c).

(** The five figures are finite. *)
Definition figures_finite (c : Calculations) : Prop :=
  isFinite (rawLotSize c) = true /\
  isFinite (floorLotSize c) = true /\
  isFinite (riskForFloor c) = true /\
  isFinite (ceilLotSize c) = true /\
  isFinite (riskForCeil c) = true.

(** A hook cell is sound when its value is what the computation gives on
    the dependencies stored with it, and fresh for a state when these
    dependencies are the state's. *)
Definition memo_sound (m : Memo) : Prop :=
  memo_value m =
  Typed.calculations (snd (memo_deps m)) (fst (fst (memo_deps m)))
    (snd (fst (memo_deps m))).

Definition cell_sound (cell : option Memo) : Prop :=
  match cell with
  | Some m => memo_sound m
  | None => True
  end.

Definition fresh (st : State) (m : Memo) : Prop :=
  memo_deps m = (stopLossPoints st, riskAmount st, instrument st) /\
  memo_value m =
  Typed.calculations (instrument st) (stopLossPoints st) (riskAmount st).

(** The Number 1. *)
Definition one : number := lit 1 0.

(** [floor <= raw <= ceil], with [ceil - floor] either 0 or 1. *)
Definition bracketed (c : Calculations) : Prop :=
  le (floorLotSize c) (rawLotSize c) = true /\
  le (rawLotSize c) (ceilLotSize c) = true /\
  (sub (ceilLotSize c) (floorLotSize c) = zero \/
   sub (ceilLotSize c) (floorLotSize c) = one).

(** The three shapes a rounded result of sign [s] can have: a zero, an
    infinity, or a finite Number in canonical form. *)
Definition rounded (s : bool) (x : number) : Prop :=
  x = S754_zero s \/
  x = S754_infinity s \/
  exists (m : positive) (e : Z), x = S754_finite s m e /\ bounded prec emax m e = true.

(** Zero, Infinity or a positive finite number. *)
Definition non_negative (x : number) : Prop :=
  x = zero \/ x = Infinity \/ exists (m : positive) (e : Z), x = S754_finite false m e.

(** NaN, or a rounded result of positive sign. *)
Definition quotient_shape (x : number) : Prop :=
  x = NaN \/ rounded false x.

(** A result of sign [s] that is not zero: an infinity, or a finite Number
    in canonical form of magnitude at least [mag]. *)
Definition rounded_above (s : bool) (mag : Z) (x : number) : Prop :=
  x = S754_infinity s \/
  exists (m : positive) (e : Z),
    x = S754_finite s m e /\ bounded prec emax m e = true /\
    mag <= Zdigits2 (Zpos m) + e.

(** A key is known when it is the text of one of the six of [InstrumentKey]. *)
Definition known (key : string) : Prop := exists k : InstrumentKey, key = key_text k.

(** Two scopes hold the same three inputs. *)
Definition same_inputs (a b : Script.Scope) : Prop :=
  Script.instrument a = Script.instrument b /\
  Script.stopLossPoints a = Script.stopLossPoints b /\
  Script.riskAmount a = Script.riskAmount b.

(** Run on a known key, in a scope that holds the table of the literal,
    [body] completes normally with what [pure] gives for the key and the two
    texts, and leaves the scope as it found it. *)
Definition returns_as (body : Script.Run Calculations)
    (pure : InstrumentKey -> string -> string -> Calculations) : Prop :=
  forall (sc : Script.Scope) (k : InstrumentKey),
    Script.INSTRUMENT_DATA sc = Script.table ->
    Script.instrument sc = key_text k ->
    body sc =
    (Script.Normal (pure k (Script.stopLossPoints sc) (Script.riskAmount sc)), sc).

(** [body] called twice in a row returns the same bundle both times. *)
Definition repeatable (body : Script.Run Calculations) : Prop :=
  forall sc : Script.Scope,
    Script.INSTRUMENT_DATA sc = Script.table ->
    known (Script.instrument sc) ->
    exists c : Calculations,
      Script.bind body
        (fun first => Script.bind body (fun second => Script.ret (first, second))) sc =
      (Script.Normal (c, c), sc).

(** In two scopes with the same three inputs, whatever else they hold,
    [body] returns the same bundle. *)
Definition input_determined (body : Script.Run Calculations) : Prop :=
  forall a b : Script.Scope,
    Script.INSTRUMENT_DATA a = Script.table ->
    Script.INSTRUMENT_DATA b = Script.table ->
    known (Script.instrument a) ->
    same_inputs a b ->
    exists c : Calculations,
      fst (body a) = Script.Normal c /\ fst (body b) = Script.Normal c.

(** On a key that names no property of the table, its own or inherited,
    [body] throws. *)
Definition throws_on_unlisted (body : Script.Run Calculations) : Prop :=
  forall sc : Script.Scope,
    Script.INSTRUMENT_DATA sc = Script.table ->
    ~ known (Script.instrument sc) ->
    ~ In (Script.instrument sc) Script.Object_prototype ->
    body sc = (Script.Throw Script.TypeError, sc).

(** [Number.prototype.toFixed], for the fraction-digit counts 0 to 100 (the
    component passes 0 and 2).  A value that is not finite, or of magnitude
    [10^21] and above, is printed as [toString] prints it; otherwise the
    integer [n] nearest to [x * 10^f] is printed (the larger of two as
    near), with the point [f] digits from the end. *)
Definition Number_toFixed (x : number) (f : nat) : string :=
  let fixed (n : Z) : string :=
    let m := string_of_Z n in
    match f with
    | O => m
    | S _ =>
        let k := String.length m in
        let m := if Nat.leb k f then zeros (f + 1 - k) ++ m else m in
        let k := String.length m in
        substring 0 (k - f) m ++ "." ++ substring (k - f) f m
    end in
  match x with
  | S754_finite s m e =>
      let '(n, d) := fraction_of m e in
      if 10 ^ 21 * d <=? n then Number_toString x
      else
        (if s then "-" else "") ++
        fixed ((2 * n * 10 ^ Z.of_nat f + d) / (2 * d))
  | S754_zero _ => fixed 0
  | _ => Number_toString x
  end.


(** ** What the component displays (lines 54-59, 142 and 166-251; the
    JavaScript variant has the same text at lines 284-289 and 399-488) *)

Module View.

(** The props a [ResultDisplay] is rendered with, defaults filled in. *)
Record ResultDisplayProps : Type := {
  label : string;
  value : string;
  unit : string;
  color : string
}.

Definition ResultDisplay (label value : string) (unit color : option string)
  : ResultDisplayProps :=
  {| label := label;
     value := value;
     unit := match unit with Some u => u | None => "" end;
     color := match color with Some c => c | None => "text-green-400" end |}.

(** The rows under "Calculation Results", top to bottom. *)
Definition results (calculations : Calculations) : list ResultDisplayProps :=
  ResultDisplay "Real Contract Size"
    (Number_toFixed (rawLotSize calculations) 2)
    (Some " contracts") (Some "text-blue-400")
  ::
  (if gt (floorLotSize calculations) zero then
     [ ResultDisplay "Fixed Size (Floor)"
         (Number_toFixed (floorLotSize calculations) 0)
         (Some " contracts") (Some "text-green-400");
       ResultDisplay
         ("Risk for " ++ Number_toString (floorLotSize calculations) ++ " contract(s)")
         ("$" ++ Number_toFixed (riskForFloor calculations) 2)
         None (Some "text-yellow-400") ]
     ++
     (if lt (floorLotSize calculations) (ceilLotSize calculations) then
        [ ResultDisplay "Fixed Size (Ceil)"
            (Number_toFixed (ceilLotSize calculations) 0)
            (Some " contracts") (Some "text-teal-400");
          ResultDisplay
            ("Risk for " ++ Number_toString (ceilLotSize calculations) ++ " contract(s)")
            ("$" ++ Number_toFixed (riskForCeil calculations) 2)
            None (Some "text-orange-400") ]
      else [])
   else
     [ ResultDisplay "Min. Risk for 1 Contract"
         ("$" ++ Number_toFixed (riskForOneContract calculations) 2)
         None (Some "text-red-500") ]).

(** [Object.keys(INSTRUMENT_DATA)], in the order of the literal. *)
Definition keys : list InstrumentKey := [NQ; MNQ; ES; MES; GC; MGC].

(** A button of the instrument selector: its text, whether it is drawn as
    the selected one, and the instrument its click selects. *)
Record InstrumentButton : Type := {
  text : string;
  selected : bool;
  onClick : InstrumentKey
}.

Definition instrumentButtons (st : State) : list InstrumentButton :=
  map (fun instKey =>
         {| text := name (INSTRUMENT_DATA instKey);
            selected := InstrumentKey_eqb (instrument st) instKey;
            onClick := instKey |})
      keys.

(** The button beside the risk field: its text and its handler. *)
Definition riskButton (st : State) : string * (State -> State) :=
  if isHalfRisk st then ("Full R", handleFullRisk) else ("Half R", handleHalfRisk).

(** The line under the results. *)
Definition footer (st : State) : string :=
  let selectedInstrumentData := INSTRUMENT_DATA (instrument st) in
  "Tick Value: $" ++ Number_toFixed (tickValue selectedInstrumentData) 2 ++
  " | Ticks per Point: " ++ Number_toString (ticksPerPoint selectedInstrumentData).

End View.

(** A click on the button beside the risk field, as displayed. *)
Definition clickRiskButton (st : State) : State := snd (View.riskButton st) st.

(** A sequence of events handled in order. *)
Definition handleAll (events : list Event) (st : State) : State :=
  fold_left (fun s e => handle e s) events st.

Definition is_ClickFullR (e : Event) : bool :=
  match e with ClickFullR => true | _ => false end.

(** * Properties *)

(** ** Scenarios A and C of the specification *)

Example scenario_A :
  Typed.calculations NQ "10" "100" =
  {| rawLotSize := lit 5 (-1);
     floorLotSize := zero;
     riskForFloor := zero;
     ceilLotSize := lit 1 0;
     riskForCeil := lit 200 0;
     riskForOneContract := lit 200 0 |}.
Proof. vm_compute. reflexivity. Qed.

Example scenario_C :
  Typed.calculations NQ "0" "100" = degenerate zero /\
  Typed.calculations NQ "" "100" = degenerate zero.
Proof. split; vm_compute; reflexivity. Qed.

(** ** Comparisons with zero *)

Lemma gt_zero_not_le (x : number) : gt x zero = true -> le x zero = false.
Proof.
  destruct x as [s | s | | s m e]; try destruct s; cbn; congruence.
Qed.

(** A number that is neither NaN nor [<= 0] is [> 0]. *)
Lemma not_le_zero_gt (x : number) :
  isNaN x = false -> le x zero = false -> gt x zero = true.
Proof.
  destruct x as [s | s | | s m e]; try destruct s; cbn; congruence.
Qed.

Lemma both_positive_regular (sl rb : number) :
  gt sl zero = true -> gt rb zero = true -> le sl zero || le rb zero = false.
Proof.
  intros Hs Hr. rewrite (gt_zero_not_le _ Hs), (gt_zero_not_le _ Hr). reflexivity.
Qed.

(** A positive number is a positive finite one or Infinity. *)
Lemma gt_zero_inv (x : number) :
  gt x zero = true ->
  x = Infinity \/ exists (m : positive) (e : Z), x = S754_finite false m e.
Proof.
  destruct x as [s | s | | s m e]; try destruct s; cbn; try discriminate; intros _.
  - left. reflexivity.
  - right. exists m, e. reflexivity.
Qed.

(** ** Binary digits *)

Lemma digits2_pos_size (p : positive) : digits2_pos p = Pos.size p.
Proof. induction p as [p IH | p IH |]; cbn; congruence. Qed.

Lemma Zdigits2_log2 (z : Z) : 0 < z -> Zdigits2 z = Z.log2 z + 1.
Proof.
  destruct z as [| p | p]; try lia. intros _. cbn [Zdigits2].
  rewrite digits2_pos_size. destruct p as [p | p |]; cbn; try reflexivity;
    rewrite Pos2Z.inj_succ; lia.
Qed.

Lemma Zdigits2_nonneg (z : Z) : 0 <= Zdigits2 z.
Proof. destruct z; cbn; lia. Qed.

Lemma Zdigits2_bounds (z : Z) : 0 < z -> 2 ^ (Zdigits2 z - 1) <= z < 2 ^ Zdigits2 z.
Proof.
  intros H. rewrite (Zdigits2_log2 z H).
  replace (Z.log2 z + 1 - 1) with (Z.log2 z) by lia.
  pose proof (Z.log2_spec z H) as H0. rewrite <- Z.add_1_r in H0. lia.
Qed.

Lemma Zdigits2_unique (z d : Z) : 2 ^ (d - 1) <= z < 2 ^ d -> 0 < d -> Zdigits2 z = d.
Proof.
  intros H Hd. assert (0 < z) by (pose proof (Z.pow_pos_nonneg 2 (d - 1)); lia).
  rewrite (Zdigits2_log2 z) by assumption.
  assert (Z.log2 z = d - 1); [| lia].
  apply Z.log2_unique; [lia |]. replace (Z.succ (d - 1)) with d by lia. exact H.
Qed.

Lemma Zdigits2_le (a b : Z) : 0 <= a <= b -> Zdigits2 a <= Zdigits2 b.
Proof.
  intros [Ha Hab]. destruct (Z.eq_dec a 0) as [-> | Hn].
  - apply Zdigits2_nonneg.
  - rewrite !Zdigits2_log2 by lia. pose proof (Z.log2_le_mono a b Hab). lia.
Qed.

Lemma fexp_mono (a b : Z) : a <= b -> fexp prec emax a <= fexp prec emax b.
Proof. unfold fexp. lia. Qed.

Lemma fexp_ge_emin (a : Z) : emin prec emax <= fexp prec emax a.
Proof. unfold fexp. lia. Qed.

Lemma pow2_xI (p : positive) : 2 ^ Zpos p~1 = 2 * (2 ^ Zpos p * 2 ^ Zpos p).
Proof.
  rewrite (Pos2Z.inj_xI p). replace (2 * Zpos p + 1) with (1 + (Zpos p + Zpos p)) by lia.
  rewrite !Z.pow_add_r by lia. reflexivity.
Qed.

Lemma pow2_xO (p : positive) : 2 ^ Zpos p~0 = 2 ^ Zpos p * 2 ^ Zpos p.
Proof.
  rewrite (Pos2Z.inj_xO p). replace (2 * Zpos p) with (Zpos p + Zpos p) by lia.
  rewrite !Z.pow_add_r by lia. reflexivity.
Qed.

Lemma pow2_pos (n : Z) : 0 <= n -> 0 < 2 ^ n.
Proof. intros H. apply Z.pow_pos_nonneg; lia. Qed.

(** ** Rounding never makes a NaN out of a non-negative mantissa *)

Lemma shr_1_nonneg (mrs : shr_record) : 0 <= shr_m mrs -> 0 <= shr_m (shr_1 mrs).
Proof.
  destruct mrs as [m r s]. destruct m as [| p | p]; cbn; intros H; try lia;
    destruct p; cbn; lia.
Qed.

Lemma iter_shr_1_nonneg (p : positive) :
  forall mrs : shr_record, 0 <= shr_m mrs -> 0 <= shr_m (iter_pos shr_1 p mrs).
Proof.
  induction p as [p IH | p IH |]; intros mrs H; cbn [iter_pos].
  - apply IH, IH, shr_1_nonneg, H.
  - apply IH, IH, H.
  - apply shr_1_nonneg, H.
Qed.

Lemma shr_fexp_nonneg (m e : Z) (l : location) :
  0 <= m -> 0 <= shr_m (fst (shr_fexp prec emax m e l)).
Proof.
  intros H. unfold shr_fexp, shr.
  assert (H0 : 0 <= shr_m (shr_record_of_loc m l)) by (destruct l as [| []]; exact H).
  destruct (fexp prec emax (Zdigits2 m + e) - e); cbn [fst]; try exact H0.
  apply iter_shr_1_nonneg, H0.
Qed.

Lemma round_nearest_even_nonneg (m : Z) (l : location) :
  0 <= m -> 0 <= round_nearest_even m l.
Proof.
  intros H. destruct l as [| []]; cbn; try lia. destruct (Z.even m); lia.
Qed.

Lemma binary_round_aux_sign (s : bool) (m e : Z) (l : location) :
  0 <= m ->
  binary_round_aux prec emax s m e l = S754_zero s \/
  binary_round_aux prec emax s m e l = S754_infinity s \/
  exists (m' : positive) (e' : Z), binary_round_aux prec emax s m e l = S754_finite s m' e'.
Proof.
  intros H. unfold binary_round_aux.
  pose proof (shr_fexp_nonneg m e l H) as H1.
  destruct (shr_fexp prec emax m e l) as [mrs' e'].
  cbn [fst] in H1.
  pose proof (shr_fexp_nonneg _ e' loc_Exact
                (round_nearest_even_nonneg (shr_m mrs') (loc_of_shr_record mrs') H1))
    as H2.
  destruct (shr_fexp prec emax
              (round_nearest_even (shr_m mrs') (loc_of_shr_record mrs')) e' loc_Exact)
    as [mrs'' e''].
  cbn [fst] in H2.
  destruct (shr_m mrs'') as [| p | p]; [left; reflexivity | | lia].
  destruct (e'' <=? emax - prec); [right; right; eauto | right; left; reflexivity].
Qed.

Lemma binary_round_aux_not_nan (s : bool) (m e : Z) (l : location) :
  0 <= m -> isNaN (binary_round_aux prec emax s m e l) = false.
Proof.
  intros H.
  destruct (binary_round_aux_sign s m e l H) as [-> | [-> | (m' & e' & ->)]];
    reflexivity.
Qed.

(** ** What the shifts of the rounding compute *)

Lemma shr_1_div2 (mrs : shr_record) : 0 <= shr_m mrs -> shr_m (shr_1 mrs) = shr_m mrs / 2.
Proof.
  destruct mrs as [m r s]. cbn [shr_m]. intros H.
  destruct m as [| p | p]; [reflexivity | | lia].
  destruct p as [p | p |]; cbn [shr_1 shr_m].
  - rewrite (Pos2Z.inj_xI p). apply Z.div_unique with (r := 1); lia.
  - rewrite (Pos2Z.inj_xO p). apply Z.div_unique with (r := 0); lia.
  - reflexivity.
Qed.

Lemma iter_shr_1_div (p : positive) :
  forall mrs : shr_record,
    0 <= shr_m mrs ->
    shr_m (iter_pos shr_1 p mrs) = shr_m mrs / 2 ^ Zpos p.
Proof.
  induction p as [p IH | p IH |]; intros mrs H; cbn [iter_pos].
  - assert (H1 : 0 <= shr_m (shr_1 mrs)) by (apply shr_1_nonneg, H).
    assert (H2 : 0 <= shr_m (iter_pos shr_1 p (shr_1 mrs))).
    { rewrite IH by exact H1. apply Z.div_pos; [exact H1 | apply pow2_pos; lia]. }
    rewrite IH, IH, shr_1_div2 by assumption.
    pose proof (pow2_pos (Zpos p) ltac:(lia)) as Hp.
    rewrite !Z.div_div by lia. rewrite pow2_xI. f_equal.
  - assert (H2 : 0 <= shr_m (iter_pos shr_1 p mrs)).
    { rewrite IH by exact H. apply Z.div_pos; [exact H | apply pow2_pos; lia]. }
    rewrite IH, IH by assumption.
    pose proof (pow2_pos (Zpos p) ltac:(lia)) as Hp.
    rewrite !Z.div_div by lia. rewrite pow2_xO. reflexivity.
  - rewrite shr_1_div2 by exact H. reflexivity.
Qed.

Lemma shr_record_of_loc_m (m : Z) (l : location) : shr_m (shr_record_of_loc m l) = m.
Proof. destruct l as [| []]; reflexivity. Qed.

(** What [shr_fexp] returns when the exponent is not above the canonical one. *)
Lemma shr_fexp_spec (m e : Z) (l : location) :
  0 <= m ->
  e <= fexp prec emax (Zdigits2 m + e) ->
  let '(mrs, e') := shr_fexp prec emax m e l in
  0 <= shr_m mrs /\
  shr_m mrs <= m /\
  e' = fexp prec emax (Zdigits2 m + e) /\
  (0 < shr_m mrs -> fexp prec emax (Zdigits2 (shr_m mrs) + e') = e') /\
  (shr_m mrs = 0 -> e' = emin prec emax).
Proof.
  intros Hm He. unfold shr_fexp, shr.
  set (n := fexp prec emax (Zdigits2 m + e) - e).
  assert (Hn : 0 <= n) by (subst n; lia).
  destruct n as [| p | p] eqn:En; [| | lia].
  - rewrite shr_record_of_loc_m.
    assert (Ee : e = fexp prec emax (Zdigits2 m + e)) by lia.
    refine (conj Hm (conj (Z.le_refl m) (conj Ee (conj _ _)))).
    + intros _. symmetry. exact Ee.
    + intros ->. cbn [Zdigits2] in Ee.
      unfold fexp, emin, prec, emax in *. lia.
  - rewrite iter_shr_1_div by (rewrite shr_record_of_loc_m; exact Hm).
    rewrite shr_record_of_loc_m.
    pose proof (pow2_pos (Zpos p) ltac:(lia)) as Hp.
    assert (Hq : 0 <= m / 2 ^ Zpos p) by (apply Z.div_pos; lia).
    assert (Hle : m / 2 ^ Zpos p <= m).
    { apply Z.div_le_upper_bound; [lia |]. nia. }
    assert (Ee : e + Zpos p = fexp prec emax (Zdigits2 m + e)) by lia.
    refine (conj Hq (conj Hle (conj Ee (conj _ _)))).
    + intros Hpos.
      assert (Hmp : 0 < m) by lia.
      assert (Hge : 2 ^ Zpos p <= m).
      { destruct (Z_lt_le_dec m (2 ^ Zpos p)) as [Hlt | Hge]; [| exact Hge].
        rewrite Z.div_small in Hpos by lia. lia. }
      assert (Hd : Zdigits2 (m / 2 ^ Zpos p) = Zdigits2 m - Zpos p).
      { rewrite !Zdigits2_log2 by assumption.
        rewrite <- Z.shiftr_div_pow2 by lia. rewrite Z.log2_shiftr by exact Hmp.
        assert (Zpos p <= Z.log2 m) by (apply Z.log2_le_pow2; lia). lia. }
      rewrite Hd.
      replace (Zdigits2 m - Zpos p + (e + Zpos p)) with (Zdigits2 m + e) by lia.
      symmetry. exact Ee.
    + intros Hz.
      assert (Hlt : m < 2 ^ Zpos p).
      { destruct (Z_lt_le_dec m (2 ^ Zpos p)) as [Hlt | Hge]; [exact Hlt |].
        assert (1 <= m / 2 ^ Zpos p) by (apply Z.div_le_lower_bound; lia). lia. }
      assert (Hd : Zdigits2 m <= Zpos p).
      { destruct (Z.eq_dec m 0) as [-> | Hn0]; [cbn; lia |].
        rewrite Zdigits2_log2 by lia.
        assert (Z.log2 m < Zpos p) by (apply Z.log2_lt_pow2; lia). lia. }
      rewrite Ee. unfold fexp, emin, prec, emax in *. lia.
Qed.

(** ** A rounded result is in canonical form *)

Lemma round_nearest_even_bounds (m : Z) (l : location) :
  m <= round_nearest_even m l <= m + 1.
Proof.
  destruct l as [| []]; cbn; try lia. destruct (Z.even m); lia.
Qed.

Lemma binary_round_aux_rounded (s : bool) (m e : Z) (l : location) :
  0 <= m ->
  e <= fexp prec emax (Zdigits2 m + e) ->
  rounded s (binary_round_aux prec emax s m e l).
Proof.
  intros Hm He. unfold binary_round_aux.
  pose proof (shr_fexp_spec m e l Hm He) as H1.
  destruct (shr_fexp prec emax m e l) as [mrs1 e1].
  destruct H1 as (Hm1 & _ & _ & Hcan1 & Hzero1).
  pose proof (round_nearest_even_bounds (shr_m mrs1) (loc_of_shr_record mrs1)) as Hr.
  set (m2 := round_nearest_even (shr_m mrs1) (loc_of_shr_record mrs1)) in *.
  assert (Hm2 : 0 <= m2) by lia.
  assert (He2 : e1 <= fexp prec emax (Zdigits2 m2 + e1)).
  { destruct (Z.eq_dec (shr_m mrs1) 0) as [Hz | Hnz].
    - rewrite (Hzero1 Hz). apply fexp_ge_emin.
    - rewrite <- (Hcan1 ltac:(lia)) at 1. apply fexp_mono.
      pose proof (Zdigits2_le (shr_m mrs1) m2 ltac:(lia)). lia. }
  pose proof (shr_fexp_spec m2 e1 loc_Exact Hm2 He2) as H2.
  destruct (shr_fexp prec emax m2 e1 loc_Exact) as [mrs3 e3].
  destruct H2 as (Hm3 & _ & _ & Hcan3 & _).
  destruct (shr_m mrs3) as [| p | p] eqn:E3.
  - left. reflexivity.
  - destruct (e3 <=? emax - prec) eqn:Hle.
    + right. right. exists p, e3. split; [reflexivity |].
      unfold bounded, canonical_mantissa. rewrite Hle.
      specialize (Hcan3 ltac:(lia)). cbn [Zdigits2] in Hcan3.
      rewrite Hcan3, Z.eqb_refl. reflexivity.
    + right. left. reflexivity.
  - lia.
Qed.

(** The quotient [SFdiv_core_binary] hands to the rounding has digits enough. *)
Lemma SFdiv_core_binary_spec (m1 m2 : positive) (e1 e2 : Z) :
  let '(q, e', l) := SFdiv_core_binary prec emax (Zpos m1) e1 (Zpos m2) e2 in
  0 <= q /\ e' <= fexp prec emax (Zdigits2 q + e').
Proof.
  unfold SFdiv_core_binary.
  set (d1 := Zdigits2 (Zpos m1)). set (d2 := Zdigits2 (Zpos m2)).
  set (e' := Z.min (fexp prec emax (d1 + e1 - (d2 + e2))) (e1 - e2)).
  set (s := e1 - e2 - e').
  assert (Hs : 0 <= s) by (subst s e'; lia).
  set (m' := match s with Z0 => Zpos m1 | Zpos _ => Z.shiftl (Zpos m1) s | Zneg _ => 0 end).
  assert (Em' : m' = Zpos m1 * 2 ^ s).
  { subst m'. destruct s as [| p | p] eqn:Es; [cbn; lia | | lia].
    rewrite Z.shiftl_mul_pow2 by lia. reflexivity. }
  pose proof (pow2_pos s Hs) as Hps.
  assert (Hm' : 0 < m') by (rewrite Em'; nia).
  pose proof (Z.div_pos m' (Zpos m2) ltac:(lia) ltac:(lia)) as Hq.
  assert (Hdig : d1 - d2 + s <= Zdigits2 (m' / Zpos m2)).
  { destruct (Z_le_gt_dec (d1 - d2 + s) 0) as [Hsmall | Hbig].
    - pose proof (Zdigits2_nonneg (m' / Zpos m2)). lia.
    - pose proof (Zdigits2_bounds (Zpos m1) ltac:(lia)) as [Hlo1 _].
      pose proof (Zdigits2_bounds (Zpos m2) ltac:(lia)) as [_ Hhi2].
      fold d1 in Hlo1. fold d2 in Hhi2.
      assert (Hd1 : 0 < d1) by (subst d1; cbn; lia).
      assert (Hd2 : 0 < d2) by (subst d2; cbn; lia).
      assert (Hqlo : 2 ^ (d1 - d2 + s - 1) <= m' / Zpos m2).
      { apply Z.div_le_lower_bound; [lia |].
        assert (Hpow : 2 ^ (d1 - 1) * 2 ^ s = 2 ^ d2 * 2 ^ (d1 - d2 + s - 1)).
        { rewrite <- !Z.pow_add_r by lia. f_equal. lia. }
        pose proof (pow2_pos (d1 - d2 + s - 1) ltac:(lia)) as Hpp.
        rewrite Em'. nia. }
      assert (Hqpos : 0 < m' / Zpos m2).
      { pose proof (pow2_pos (d1 - d2 + s - 1) ltac:(lia)). lia. }
      rewrite Zdigits2_log2 by exact Hqpos.
      assert (d1 - d2 + s - 1 <= Z.log2 (m' / Zpos m2)); [| lia].
      apply Z.log2_le_pow2; [exact Hqpos | exact Hqlo]. }
  unfold Z.div in Hq, Hdig. destruct (Z.div_eucl m' (Zpos m2)) as [q r].
  cbn [fst] in Hq, Hdig. split; [exact Hq |].
  transitivity (fexp prec emax (d1 + e1 - (d2 + e2))); [subst e'; lia |].
  apply fexp_mono. subst s. lia.
Qed.

Lemma div_finite_rounded (m1 m2 : positive) (e1 e2 : Z) :
  rounded false (div (S754_finite false m1 e1) (S754_finite false m2 e2)).
Proof.
  unfold div, SFdiv.
  pose proof (SFdiv_core_binary_spec m1 m2 e1 e2) as H.
  destruct (SFdiv_core_binary prec emax (Zpos m1) e1 (Zpos m2) e2) as [[q e'] l].
  destruct H as [Hq He]. cbn [xorb].
  apply binary_round_aux_rounded; assumption.
Qed.

(** ** No NaN out of the regular branch *)

Lemma of_Z_not_nan (s : bool) (z : Z) : isNaN (of_Z s z) = false.
Proof.
  unfold of_Z, binary_normalize, binary_round.
  destruct z as [| p | p]; [reflexivity | |];
    destruct (shl_align _ _ _) as [mz ez]; apply binary_round_aux_not_nan; lia.
Qed.

Lemma Math_floor_not_nan (x : number) : isNaN x = false -> isNaN (Math_floor x) = false.
Proof.
  destruct x as [s | s | | s m e]; cbn [Math_floor]; try (intros H; exact H).
  intros _. destruct (0 <=? e); [reflexivity |].
  destruct s; apply of_Z_not_nan.
Qed.

Lemma Math_ceil_not_nan (x : number) : isNaN x = false -> isNaN (Math_ceil x) = false.
Proof.
  destruct x as [s | s | | s m e]; cbn [Math_ceil]; try (intros H; exact H).
  intros _. destruct (0 <=? e); [reflexivity |].
  destruct s; apply of_Z_not_nan.
Qed.

(** A number that is not NaN, times a finite number other than zero. *)
Lemma mul_finite_not_nan (x : number) (s : bool) (m : positive) (e : Z) :
  isNaN x = false -> isNaN (mul x (S754_finite s m e)) = false.
Proof.
  destruct x as [sx | sx | | sx mx ex]; cbn [isNaN]; intros H;
    try discriminate H; try reflexivity.
  unfold mul, SFmul. apply binary_round_aux_not_nan. lia.
Qed.

(** A number that is not NaN, over a finite number other than zero. *)
Lemma div_finite_not_nan (x : number) (s : bool) (m : positive) (e : Z) :
  isNaN x = false -> isNaN (div x (S754_finite s m e)) = false.
Proof.
  destruct x as [sx | sx | | sx mx ex]; cbn [isNaN]; intros H;
    try discriminate H; try reflexivity.
  unfold div, SFdiv, SFdiv_core_binary.
  set (m' := match _ - _ - _ with Z0 => Z.pos mx | Z.pos _ => _ | Z.neg _ => 0 end).
  assert (Hm' : 0 <= m').
  { subst m'. destruct (_ - _ - _); try lia. apply Z.shiftl_nonneg. lia. }
  pose proof (Z.div_pos m' (Z.pos m) Hm' ltac:(lia)) as Hq.
  unfold Z.div in Hq. destruct (Z.div_eucl m' (Z.pos m)) as [q r].
  cbn [fst] in Hq. apply binary_round_aux_not_nan, Hq.
Qed.

(** With a finite positive risk per contract and a risk budget that is not
    NaN, no formula of the regular branch evaluates to NaN. *)
Lemma regular_formulas_not_nan (rpc rb : number) :
  isFinite rpc = true ->
  gt rpc zero = true ->
  isNaN rb = false ->
  let raw := div rb rpc in
  isNaN raw = false /\
  isNaN (Math_floor raw) = false /\
  isNaN (mul (Math_floor raw) rpc) = false /\
  isNaN (Math_ceil raw) = false /\
  isNaN (mul (Math_ceil raw) rpc) = false.
Proof.
  intros Hfin Hpos Hrb raw.
  destruct (gt_zero_inv rpc Hpos) as [-> | (m & e & ->)]; [discriminate Hfin |].
  assert (Hraw : isNaN raw = false) by (apply div_finite_not_nan, Hrb).
  pose proof (Math_floor_not_nan raw Hraw) as Hfloor.
  pose proof (Math_ceil_not_nan raw Hraw) as Hceil.
  repeat split; try assumption; apply mul_finite_not_nan; assumption.
Qed.

(** What [parseFloat(text) || 0] can be: never NaN. *)
Lemma or_else_zero_not_nan (x : number) : isNaN (or_else x zero) = false.
Proof. destruct x; reflexivity. Qed.

(** ** Integers as Numbers, and the floor and the ceiling of a Number *)

Lemma binary_round_aux_exact (s : bool) (p : positive) (e : Z) :
  bounded prec emax p e = true ->
  binary_round_aux prec emax s (Zpos p) e loc_Exact = S754_finite s p e.
Proof.
  intros Hb. unfold bounded, canonical_mantissa in Hb.
  apply andb_true_iff in Hb. destruct Hb as [Hc Hle]. apply Z.eqb_eq in Hc.
  unfold binary_round_aux, shr_fexp. cbn [Zdigits2]. rewrite Hc, Z.sub_diag.
  cbn [shr shr_record_of_loc shr_m loc_of_shr_record round_nearest_even Zdigits2].
  rewrite Hc, Z.sub_diag. cbn [shr shr_m]. rewrite Hle. reflexivity.
Qed.

Lemma iter_xO_pow2 (m d : positive) : Zpos (Pos.iter xO m d) = Zpos m * 2 ^ Zpos d.
Proof.
  induction d as [| d IH] using Pos.peano_ind.
  - cbn [Pos.iter]. rewrite (Pos2Z.inj_xO m). rewrite Z.pow_1_r. lia.
  - rewrite Pos.iter_succ, (Pos2Z.inj_xO (Pos.iter xO m d)), IH.
    rewrite Pos2Z.inj_succ, Z.pow_succ_r by lia. lia.
Qed.

Lemma shl_align_spec (m : positive) (e e' : Z) :
  e' <= e ->
  snd (shl_align m e e') = e' /\
  Zpos (fst (shl_align m e e')) = Zpos m * 2 ^ (e - e').
Proof.
  intros H. unfold shl_align. destruct (e' - e) as [| d | d] eqn:E; [| lia |].
  - cbn [fst snd]. replace (e - e') with 0 by lia. split; lia.
  - cbn [fst snd]. split; [reflexivity |].
    rewrite iter_xO_pow2. f_equal. f_equal. lia.
Qed.

(** A positive integer of at most 53 digits, scaled by [2^e], is a Number,
    and [binary_normalize] returns it with a mantissa of 53 digits. *)
Lemma binary_normalize_exact (p : positive) (e : Z) :
  Zdigits2 (Zpos p) <= 53 ->
  -1074 <= Zdigits2 (Zpos p) + e - 53 <= 971 ->
  exists mz : positive,
    binary_normalize prec emax (Zpos p) e false =
    S754_finite false mz (Zdigits2 (Zpos p) + e - 53) /\
    Zpos mz = Zpos p * 2 ^ (53 - Zdigits2 (Zpos p)).
Proof.
  set (d := Zdigits2 (Zpos p)). intros Hd He.
  assert (Hd1 : 1 <= d) by (subst d; cbn; lia).
  unfold binary_normalize, binary_round.
  change (Zpos (digits2_pos p)) with d.
  assert (Ef : fexp prec emax (d + e) = d + e - 53)
    by (unfold fexp, emin, prec, emax; lia).
  rewrite Ef.
  pose proof (shl_align_spec p e (d + e - 53) ltac:(lia)) as [Hez Hmz].
  destruct (shl_align p e (d + e - 53)) as [mz ez]. cbn [fst snd] in Hez, Hmz.
  subst ez. replace (e - (d + e - 53)) with (53 - d) in Hmz by lia.
  exists mz. split; [| exact Hmz].
  apply binary_round_aux_exact. unfold bounded, canonical_mantissa.
  assert (Hdz : Zdigits2 (Zpos mz) = 53).
  { apply Zdigits2_unique; [| lia]. rewrite Hmz.
    pose proof (Zdigits2_bounds (Zpos p) ltac:(lia)) as [Hlo Hhi]. fold d in Hlo, Hhi.
    pose proof (pow2_pos (53 - d) ltac:(lia)) as Hpp.
    assert (E1 : 2 ^ (53 - 1) = 2 ^ (d - 1) * 2 ^ (53 - d))
      by (rewrite <- Z.pow_add_r by lia; f_equal; lia).
    assert (E2 : 2 ^ 53 = 2 ^ d * 2 ^ (53 - d))
      by (rewrite <- Z.pow_add_r by lia; f_equal; lia).
    rewrite E1, E2. nia. }
  cbn [Zdigits2] in Hdz. rewrite Hdz.
  replace (53 + (d + e - 53)) with (d + e) by lia. rewrite Ef, Z.eqb_refl.
  cbn [andb]. apply Z.leb_le. unfold emax, prec. lia.
Qed.

Lemma le_finite (m1 m2 : positive) (e1 e2 : Z) :
  e1 < e2 \/ (e1 = e2 /\ Zpos m1 <= Zpos m2) ->
  le (S754_finite false m1 e1) (S754_finite false m2 e2) = true.
Proof.
  intros H. unfold le, SFleb, SFcompare.
  destruct (Z.compare_spec e1 e2) as [E | E | E]; try reflexivity; try lia.
  fold (Pos.compare m1 m2).
  destruct (Pos.compare_spec m1 m2) as [Em | Em | Em]; try reflexivity. lia.
Qed.

Lemma sub_finite (mc mf : positive) (ec ef : Z) :
  sub (S754_finite false mc ec) (S754_finite false mf ef) =
  binary_normalize prec emax
    (Zpos mc * 2 ^ (ec - Z.min ec ef) - Zpos mf * 2 ^ (ef - Z.min ec ef))
    (Z.min ec ef) false.
Proof.
  unfold sub, SFsub. cbn [cond_Zopp].
  pose proof (shl_align_spec mc ec (Z.min ec ef) ltac:(lia)) as [_ ->].
  pose proof (shl_align_spec mf ef (Z.min ec ef) ltac:(lia)) as [_ ->].
  reflexivity.
Qed.

Lemma bounded_inv (m : positive) (e : Z) :
  bounded prec emax m e = true ->
  ((Zdigits2 (Zpos m) = 53 /\ -1074 <= e) \/ (e = -1074 /\ Zdigits2 (Zpos m) < 53)) /\
  e <= 971.
Proof.
  unfold bounded, canonical_mantissa. intros Hb.
  apply andb_true_iff in Hb. destruct Hb as [Hc Hle].
  apply Z.eqb_eq in Hc. apply Z.leb_le in Hle. cbn [Zdigits2].
  unfold fexp, emin, prec, emax in *. lia.
Qed.

Lemma pow2_le (a b : Z) : 0 <= a <= b -> 2 ^ a <= 2 ^ b.
Proof. intros H. apply Z.pow_le_mono_r; lia. Qed.

Lemma pow2_lt_inv (a b : Z) : 0 <= a -> 0 <= b -> 2 ^ a < 2 ^ b -> a < b.
Proof. intros Ha Hb H. apply (Z.pow_lt_mono_r_iff 2); lia. Qed.

Lemma pow2_split (a b : Z) : 0 <= a -> 0 <= b -> 2 ^ (a + b) = 2 ^ a * 2 ^ b.
Proof. intros Ha Hb. apply Z.pow_add_r; assumption. Qed.

(** The difference [2^k * 2^e] with [e = - k] normalizes to 1. *)
Lemma normalize_unit (k : Z) :
  1 <= k <= 52 -> binary_normalize prec emax (2 ^ k) (- k) false = one.
Proof.
  intros Hk. pose proof (pow2_pos k ltac:(lia)) as Hp.
  destruct (2 ^ k) as [| pk | pk] eqn:Ek; try lia.
  assert (Hd : Zdigits2 (Zpos pk) = k + 1).
  { apply Zdigits2_unique; [| lia]. rewrite <- Ek.
    replace (k + 1 - 1) with k by lia. rewrite Z.pow_add_r by lia. lia. }
  destruct (binary_normalize_exact pk (- k)) as (mz & -> & Hmz); rewrite ?Hd; try lia.
  rewrite Hd in Hmz. rewrite <- Ek, <- Z.pow_add_r in Hmz by lia.
  replace (k + (53 - (k + 1))) with 52 in Hmz by lia.
  replace (k + 1 + - k - 53) with (-52) by lia.
  change (2 ^ 52) with (Zpos 4503599627370496) in Hmz.
  injection Hmz as ->. reflexivity.
Qed.

Lemma bracket (m : positive) (e : Z) :
  bounded prec emax m e = true ->
  let x := S754_finite false m e in
  isFinite (Math_floor x) = true /\
  isFinite (Math_ceil x) = true /\
  le (Math_floor x) x = true /\
  le x (Math_ceil x) = true /\
  (sub (Math_ceil x) (Math_floor x) = zero \/
   sub (Math_ceil x) (Math_floor x) = one).
Proof.
  intros Hb x. destruct (bounded_inv m e Hb) as [Hshape Hmax].
  pose proof (Zdigits2_bounds (Zpos m) ltac:(lia)) as [Hmlo Hmhi].
  assert (Hxx : le x x = true) by (apply le_finite; right; split; lia).
  assert (Hsubxx : sub x x = zero).
  { unfold x. rewrite sub_finite. rewrite Z.sub_diag. reflexivity. }
  subst x. cbn [Math_floor Math_ceil].
  destruct (0 <=? e) eqn:Hsign.
  { repeat split; try assumption; try reflexivity. left. exact Hsubxx. }
  apply Z.leb_gt in Hsign.
  rewrite Z.shiftr_div_pow2 by lia.
  set (K := 2 ^ (- e)).
  assert (HK : 0 < K) by (apply pow2_pos; lia).
  set (q := Zpos m / K).
  rewrite Z.shiftl_mul_pow2 by lia. fold K.
  pose proof (Z.div_mod (Zpos m) K ltac:(lia)) as Hdm.
  pose proof (Z.mod_pos_bound (Zpos m) K HK) as Hr.
  fold q in Hdm. set (r := Zpos m mod K) in *.
  assert (Hq0 : 0 <= q) by (apply Z.div_pos; lia).
  assert (Hqdef : q = Zpos m / K) by reflexivity.
  assert (HKdef : K = 2 ^ (- e)) by reflexivity.
  clearbody q r K.
  destruct (Z.eq_dec q 0) as [Eq | Nq].
  - (* below 1 *)
    rewrite Eq. assert (Hlt : Zpos m < K) by (rewrite Eq in Hdm; lia).
    assert (He : e < -52).
    { destruct (Z_lt_le_dec e (-52)) as [Hl | Hg]; [exact Hl |].
      destruct Hshape as [[Hd _] | [He _]]; [| lia].
      rewrite Hd in Hmlo. pose proof (pow2_le (- e) 52 ltac:(lia)) as H.
      rewrite <- HKdef in H.
      change (53 - 1) with 52 in Hmlo. lia. }
    replace (Zpos m =? 0 * K) with false by (symmetry; apply Z.eqb_neq; lia).
    change (of_Z true (- (0 + 1))) with (S754_finite true 4503599627370496 (-52)).
    change (of_Z false (0 + 1)) with one. change (of_Z false 0) with zero.
    repeat split; try reflexivity.
    + apply le_finite. left. exact He.
    + right. reflexivity.
  - (* at least 1 *)
    assert (Hq1 : 1 <= q) by lia.
    assert (HKm : K <= Zpos m) by (clear - Hdm Hr Hq1 HK; nia).
    assert (Hd : Zdigits2 (Zpos m) = 53).
    { destruct Hshape as [[Hd _] | [He Hd]]; [exact Hd |].
      exfalso. pose proof (Zdigits2_nonneg (Zpos m)) as Hd0.
      pose proof (pow2_le (Zdigits2 (Zpos m)) (- e) ltac:(lia)) as H.
      rewrite <- HKdef in H. lia. }
    rewrite Hd in Hmlo, Hmhi. change (53 - 1) with 52 in Hmlo.
    assert (He : -52 <= e).
    { assert (- e < 53); [| lia]. apply pow2_lt_inv; lia. }
    assert (E52 : 2 ^ 52 = 2 ^ (52 + e) * K)
      by (rewrite HKdef, <- pow2_split by lia; f_equal; lia).
    assert (E53 : 2 ^ 53 = 2 ^ (53 + e) * K)
      by (rewrite HKdef, <- pow2_split by lia; f_equal; lia).
    assert (Hqlo : 2 ^ (52 + e) <= q).
    { rewrite Hqdef. apply Z.div_le_lower_bound; [lia |].
      rewrite Z.mul_comm, <- E52. exact Hmlo. }
    assert (Hqhi : q < 2 ^ (53 + e)).
    { rewrite Hqdef. apply Z.div_lt_upper_bound; [lia |].
      rewrite Z.mul_comm, <- E53. exact Hmhi. }
    assert (Hdq : Zdigits2 q = 53 + e).
    { apply Zdigits2_unique; [| lia]. replace (53 + e - 1) with (52 + e) by lia. lia. }
    assert (EK : 2 ^ (53 - (53 + e)) = K) by (rewrite HKdef; f_equal; lia).
    destruct q as [| pq | pq] eqn:Eqq; try lia.
    (* the floor *)
    destruct (binary_normalize_exact pq 0) as (mf & Hfloor & Hmf);
      rewrite ?Hdq; try lia.
    rewrite Hdq in Hfloor, Hmf. rewrite EK in Hmf.
    replace (53 + e + 0 - 53) with e in Hfloor by lia.
    assert (Efloor : of_Z false (Zpos pq) = S754_finite false mf e) by exact Hfloor.
    assert (Hfx : le (S754_finite false mf e) (S754_finite false m e) = true).
    { apply le_finite. right. split; [reflexivity | lia]. }
    destruct (Zpos m =? Zpos pq * K) eqn:Hexact.
    + (* an integer *)
      apply Z.eqb_eq in Hexact. rewrite Efloor.
      assert (Emf : mf = m) by lia. subst mf.
      repeat split; try assumption; try reflexivity. left. exact Hsubxx.
    + (* between two integers *)
      apply Z.eqb_neq in Hexact. rewrite Efloor.
      assert (Hrpos : 0 < r) by lia.
      change (Zpos pq + 1) with (Zpos (pq + 1)).
      assert (Hq1hi : Zpos (pq + 1) <= 2 ^ (53 + e)) by lia.
      assert (Hdc : 53 + e <= Zdigits2 (Zpos (pq + 1)) <= 53).
      { split.
        - rewrite <- Hdq. apply Zdigits2_le. lia.
        - replace 53 with (Zdigits2 (2 ^ 52)) by reflexivity.
          apply Zdigits2_le. split; [lia |].
          pose proof (pow2_le (53 + e) 52 ltac:(lia)). lia. }
      destruct (binary_normalize_exact (pq + 1) 0) as (mc & Hceil & Hmc); try lia.
      set (dc := Zdigits2 (Zpos (pq + 1))) in *.
      replace (dc + 0 - 53) with (dc - 53) in Hceil by lia.
      assert (Eceil : of_Z false (Zpos (pq + 1)) = S754_finite false mc (dc - 53))
        by exact Hceil.
      rewrite Eceil.
      assert (Hmc' : Zpos mc * 2 ^ (dc - 53 - e) = Zpos (pq + 1) * K).
      { rewrite Hmc, <- Z.mul_assoc, <- pow2_split by lia.
        rewrite HKdef. f_equal. f_equal. lia. }
      repeat split; try assumption; try reflexivity.
      * apply le_finite.
        destruct (Z.eq_dec (dc - 53) e) as [Ee | Ne]; [right | left; lia].
        split; [lia |]. rewrite Ee, Z.sub_diag, Z.pow_0_r in Hmc'. nia.
      * right. rewrite sub_finite.
        replace (Z.min (dc - 53) e) with e by lia. rewrite Z.sub_diag, Z.pow_0_r.
        rewrite Hmc', Hmf.
        replace (Zpos (pq + 1) * K - Zpos pq * K * 1) with K by lia.
        rewrite HKdef. replace e with (- - e) at 2 by lia. apply normalize_unit. lia.
Qed.

(** ** The shape of the quotient *)

Lemma mul_non_negative (x : number) (m : positive) (e : Z) :
  non_negative x -> non_negative (mul x (S754_finite false m e)).
Proof.
  intros [-> | [-> | (mx & ex & ->)]].
  - left. reflexivity.
  - right. left. reflexivity.
  - unfold mul, SFmul. cbn [xorb].
    apply (binary_round_aux_sign false (Zpos (mx * m)) (ex + e) loc_Exact). lia.
Qed.

Lemma instrument_numbers (i : InstrumentKey) :
  (exists (m : positive) (e : Z), ticksPerPoint (INSTRUMENT_DATA i) = S754_finite false m e) /\
  (exists (m : positive) (e : Z), tickValue (INSTRUMENT_DATA i) = S754_finite false m e).
Proof. destruct i; split; vm_compute; eauto. Qed.

Lemma riskPerContract_non_negative (i : InstrumentKey) (sl : number) :
  gt sl zero = true -> non_negative (riskPerContract_of i sl).
Proof.
  intros Hs. unfold riskPerContract_of.
  destruct (instrument_numbers i) as [(mp & ep & ->) (mv & ev & ->)].
  apply mul_non_negative, mul_non_negative.
  destruct (gt_zero_inv sl Hs) as [-> | (m & e & ->)].
  - right. left. reflexivity.
  - right. right. eauto.
Qed.

Lemma raw_quotient_shape (rb rpc : number) :
  gt rb zero = true -> non_negative rpc -> quotient_shape (div rb rpc).
Proof.
  intros Hr Hp.
  destruct (gt_zero_inv rb Hr) as [-> | (m & e & ->)];
    destruct Hp as [-> | [-> | (mp & ep & ->)]].
  - right. right. left. reflexivity.
  - left. reflexivity.
  - right. right. left. reflexivity.
  - right. right. left. reflexivity.
  - right. left. reflexivity.
  - right. apply div_finite_rounded.
Qed.

Lemma guards_keep_finite (y : number) :
  isFinite y = true -> non_finite_to_zero y = y /\ nan_to_zero y = y.
Proof. destruct y; cbn; intros H; try discriminate H; split; reflexivity. Qed.

Lemma regular_bracketed (rpc rb : number) :
  quotient_shape (div rb rpc) ->
  bracketed (regular non_finite_to_zero rpc rb) /\
  (isFinite (rawLotSize (regular nan_to_zero rpc rb)) = true ->
   bracketed (regular nan_to_zero rpc rb)).
Proof.
  unfold bracketed, regular.
  cbn [rawLotSize floorLotSize ceilLotSize].
  intros [-> | [-> | [-> | (m & e & -> & Hb)]]].
  - split; [| intros _]; repeat split; try reflexivity; left; reflexivity.
  - split; [| intros _]; repeat split; try reflexivity; left; reflexivity.
  - split; [| intros H; discriminate H].
    repeat split; try reflexivity; left; reflexivity.
  - destruct (bracket m e Hb) as (Hf & Hc & Hle1 & Hle2 & Hsub).
    destruct (guards_keep_finite _ Hf) as [-> ->].
    destruct (guards_keep_finite _ Hc) as [-> ->].
    destruct (guards_keep_finite (S754_finite false m e) eq_refl) as [-> ->].
    split; [| intros _]; repeat split; assumption.
Qed.

(** ** Magnitudes: a product that does not underflow *)

(** A shift that leaves something keeps the magnitude. *)
Lemma shr_fexp_magnitude (m e : Z) (l : location) :
  0 < m ->
  e <= fexp prec emax (Zdigits2 m + e) ->
  emin prec emax < Zdigits2 m + e ->
  let '(mrs, e') := shr_fexp prec emax m e l in
  0 < shr_m mrs /\ Zdigits2 (shr_m mrs) + e' = Zdigits2 m + e.
Proof.
  intros Hm He Hmag. unfold shr_fexp, shr.
  set (n := fexp prec emax (Zdigits2 m + e) - e).
  assert (Hn : 0 <= n) by (subst n; lia).
  pose proof (Zdigits2_bounds m Hm) as [Hlo _].
  destruct n as [| p | p] eqn:En; [| | lia].
  - rewrite shr_record_of_loc_m. split; [exact Hm | reflexivity].
  - rewrite iter_shr_1_div by (rewrite shr_record_of_loc_m; lia).
    rewrite shr_record_of_loc_m.
    assert (Hp : Zpos p <= Zdigits2 m - 1)
      by (unfold fexp, emin, prec, emax in *; lia).
    pose proof (pow2_pos (Zpos p) ltac:(lia)) as Hpp.
    assert (Hge : 2 ^ Zpos p <= m).
    { pose proof (pow2_le (Zpos p) (Zdigits2 m - 1) ltac:(lia)). lia. }
    assert (Hq : 0 < m / 2 ^ Zpos p).
    { assert (1 <= m / 2 ^ Zpos p) by (apply Z.div_le_lower_bound; lia). lia. }
    split; [exact Hq |].
    rewrite !Zdigits2_log2 by assumption.
    rewrite <- Z.shiftr_div_pow2 by lia. rewrite Z.log2_shiftr by exact Hm.
    assert (Zpos p <= Z.log2 m) by (apply Z.log2_le_pow2; lia). lia.
Qed.

Lemma binary_round_aux_above (s : bool) (m e : Z) (l : location) :
  0 < m ->
  e <= fexp prec emax (Zdigits2 m + e) ->
  emin prec emax < Zdigits2 m + e ->
  rounded_above s (Zdigits2 m + e) (binary_round_aux prec emax s m e l).
Proof.
  intros Hm He Hmag. unfold binary_round_aux.
  pose proof (shr_fexp_spec m e l ltac:(lia) He) as H1.
  pose proof (shr_fexp_magnitude m e l Hm He Hmag) as H1'.
  destruct (shr_fexp prec emax m e l) as [mrs1 e1].
  destruct H1 as (_ & _ & _ & Hcan1 & _). destruct H1' as (Hpos1 & Hmag1).
  pose proof (round_nearest_even_bounds (shr_m mrs1) (loc_of_shr_record mrs1)) as Hr.
  set (m2 := round_nearest_even (shr_m mrs1) (loc_of_shr_record mrs1)) in *.
  pose proof (Zdigits2_le (shr_m mrs1) m2 ltac:(lia)) as Hdig.
  assert (He2 : e1 <= fexp prec emax (Zdigits2 m2 + e1)).
  { rewrite <- (Hcan1 Hpos1) at 1. apply fexp_mono. lia. }
  pose proof (shr_fexp_spec m2 e1 loc_Exact ltac:(lia) He2) as H2.
  pose proof (shr_fexp_magnitude m2 e1 loc_Exact ltac:(lia) He2 ltac:(lia)) as H2'.
  destruct (shr_fexp prec emax m2 e1 loc_Exact) as [mrs3 e3].
  destruct H2 as (_ & _ & _ & Hcan3 & _). destruct H2' as (Hpos3 & Hmag3).
  destruct (shr_m mrs3) as [| p | p] eqn:E3; try lia.
  destruct (e3 <=? emax - prec) eqn:Hle; [right | left; reflexivity].
  exists p, e3. split; [reflexivity |]. split.
  - unfold bounded, canonical_mantissa. rewrite Hle.
    specialize (Hcan3 ltac:(lia)). cbn [Zdigits2] in Hcan3.
    rewrite Hcan3, Z.eqb_refl. reflexivity.
  - lia.
Qed.

Lemma Zdigits2_pos (p : positive) : 1 <= Zdigits2 (Zpos p).
Proof. cbn. lia. Qed.

Lemma Zdigits2_mul (a b : positive) :
  Zdigits2 (Zpos a) + Zdigits2 (Zpos b) - 1 <= Zdigits2 (Zpos (a * b)).
Proof.
  pose proof (Zdigits2_bounds (Zpos a) ltac:(lia)) as [Ha _].
  pose proof (Zdigits2_bounds (Zpos b) ltac:(lia)) as [Hb _].
  set (da := Zdigits2 (Zpos a)) in *. set (db := Zdigits2 (Zpos b)) in *.
  assert (Hda : 1 <= da) by (subst da; cbn; lia).
  assert (Hdb : 1 <= db) by (subst db; cbn; lia).
  rewrite (Zdigits2_log2 (Zpos (a * b))) by lia.
  assert (da + db - 2 <= Z.log2 (Zpos (a * b))); [| lia].
  apply Z.log2_le_pow2; [lia |].
  replace (da + db - 2) with ((da - 1) + (db - 1)) by lia.
  rewrite Z.pow_add_r by lia. rewrite Pos2Z.inj_mul.
  pose proof (pow2_pos (da - 1) ltac:(lia)). pose proof (pow2_pos (db - 1) ltac:(lia)).
  nia.
Qed.

(** The product of two positive Numbers in canonical form, when it lies
    above the least magnitude. *)
Lemma mul_above (mx my : positive) (ex ey : Z) :
  bounded prec emax mx ex = true ->
  bounded prec emax my ey = true ->
  -1073 < (Zdigits2 (Zpos mx) + ex) + (Zdigits2 (Zpos my) + ey) ->
  rounded_above false
    ((Zdigits2 (Zpos mx) + ex) + (Zdigits2 (Zpos my) + ey) - 1)
    (mul (S754_finite false mx ex) (S754_finite false my ey)).
Proof.
  intros Hx Hy Hmag. unfold mul, SFmul. cbn [xorb].
  destruct (bounded_inv mx ex Hx) as [Hsx _].
  destruct (bounded_inv my ey Hy) as [Hsy _].
  pose proof (Zdigits2_mul mx my) as Hd.
  pose proof (Zdigits2_pos mx) as Hdx. pose proof (Zdigits2_pos my) as Hdy.
  assert (Hpre : ex + ey <= fexp prec emax (Zdigits2 (Zpos (mx * my)) + (ex + ey)))
    by (unfold fexp, emin, prec, emax; lia).
  assert (Hmin : emin prec emax < Zdigits2 (Zpos (mx * my)) + (ex + ey))
    by (unfold emin, prec, emax; lia).
  destruct (binary_round_aux_above false (Zpos (mx * my)) (ex + ey) loc_Exact
              ltac:(lia) Hpre Hmin) as [H | (m & e & H & Hb & Hm)].
  - left. exact H.
  - right. exists m, e. split; [exact H |]. split; [exact Hb | lia].
Qed.

(** ** What [parseFloat] returns *)

Lemma binary_round_rounded (s : bool) (p : positive) (e : Z) :
  rounded s (binary_round prec emax s p e).
Proof.
  unfold binary_round.
  set (f := fexp prec emax (Zpos (digits2_pos p) + e)).
  destruct (Z_le_gt_dec f e) as [Hle | Hgt].
  - pose proof (shl_align_spec p e f Hle) as [Hez Hmz].
    destruct (shl_align p e f) as [mz ez]. cbn [fst snd] in Hez, Hmz. subst ez.
    apply binary_round_aux_rounded; [lia |].
    assert (Hd : Zdigits2 (Zpos mz) = Zdigits2 (Zpos p) + (e - f)).
    { rewrite Hmz, <- Z.shiftl_mul_pow2 by lia.
      rewrite !Zdigits2_log2; try lia.
      - rewrite Z.log2_shiftl by lia. lia.
      - rewrite Z.shiftl_mul_pow2 by lia.
        apply Z.mul_pos_pos; [lia | apply pow2_pos; lia]. }
    rewrite Hd. replace (Zdigits2 (Zpos p) + (e - f) + f) with (Zdigits2 (Zpos p) + e) by lia.
    fold f. change (Zdigits2 (Zpos p)) with (Zpos (digits2_pos p)). fold f. lia.
  - unfold shl_align. destruct (f - e) as [| d | d] eqn:E; try lia.
    apply binary_round_aux_rounded; [lia |].
    change (Zdigits2 (Zpos p)) with (Zpos (digits2_pos p)). fold f. lia.
Qed.

Lemma of_decimal_rounded (sg : bool) (m e : Z) :
  0 <= m -> rounded sg (of_decimal sg m e).
Proof.
  intros Hm. unfold of_decimal.
  destruct (m =? 0) eqn:Em; [left; reflexivity |].
  apply Z.eqb_neq in Em.
  destruct (0 <=? e) eqn:Ee.
  - apply Z.leb_le in Ee.
    pose proof (pow2_pos 0 ltac:(lia)) as _.
    assert (Hp : 0 < m * 10 ^ e).
    { apply Z.mul_pos_pos; [lia | apply Z.pow_pos_nonneg; lia]. }
    destruct (m * 10 ^ e) as [| p | p]; try lia.
    destruct sg; cbn [cond_Zopp Z.opp binary_normalize]; apply binary_round_rounded.
  - apply Z.leb_gt in Ee. unfold round_quotient.
    assert (Hd : 0 < 10 ^ (- e)) by (apply Z.pow_pos_nonneg; lia).
    destruct m as [| pm | pm]; try lia.
    destruct (10 ^ (- e)) as [| pd | pd]; try lia.
    pose proof (SFdiv_core_binary_spec pm pd 0 0) as H.
    destruct (SFdiv_core_binary prec emax (Zpos pm) 0 (Zpos pd) 0) as [[q e'] l].
    destruct H as [Hq He]. apply binary_round_aux_rounded; assumption.
Qed.

Lemma is_digit_code (c : ascii) : is_digit c = true -> 0 <= code c - 48.
Proof.
  unfold is_digit. intros H. apply andb_true_iff in H. destruct H as [H _].
  apply Z.leb_le in H. lia.
Qed.

Lemma take_digits_nonneg (s : string) :
  forall acc cnt : Z, 0 <= acc -> 0 <= fst (fst (take_digits s acc cnt)).
Proof.
  induction s as [| c r IH]; intros acc cnt Hacc; cbn [take_digits].
  - exact Hacc.
  - destruct (is_digit c) eqn:Hc; [| exact Hacc].
    apply IH. pose proof (is_digit_code c Hc). lia.
Qed.

Lemma unsigned_literal_shape (sg : bool) (s : string) :
  unsigned_literal sg s = NaN \/ rounded sg (unsigned_literal sg s).
Proof.
  unfold unsigned_literal.
  destruct (prefix "Infinity" s); [right; right; left; reflexivity |].
  pose proof (take_digits_nonneg s 0 0 ltac:(lia)) as Hip.
  destruct (take_digits s 0 0) as [[ip ni] r1]. cbn [fst] in Hip.
  assert (Hint : (if ni =? 0 then NaN else of_decimal sg ip (exponent_part r1)) = NaN \/
                 rounded sg (if ni =? 0 then NaN else of_decimal sg ip (exponent_part r1))).
  { destruct (ni =? 0); [left; reflexivity | right; apply of_decimal_rounded, Hip]. }
  destruct r1 as [| c r2]; [exact Hint |].
  destruct (Ascii.eqb c "."%char) eqn:Hc.
  - apply Ascii.eqb_eq in Hc. subst c.
    pose proof (take_digits_nonneg r2 0 0 ltac:(lia)) as Hfp.
    destruct (take_digits r2 0 0) as [[fp nf] r3]. cbn [fst] in Hfp.
    destruct ((ni =? 0) && (nf =? 0)); [left; reflexivity | right].
    apply of_decimal_rounded.
    assert (0 <= 10 ^ nf) by (apply Z.pow_nonneg; lia). nia.
  - destruct c as [[] [] [] [] [] [] [] []]; try exact Hint. discriminate Hc.
Qed.

Lemma parseFloat_shape (s : string) :
  parseFloat s = NaN \/ rounded false (parseFloat s) \/ rounded true (parseFloat s).
Proof.
  unfold parseFloat.
  assert (H : forall t, unsigned_literal false t = NaN \/
                         rounded false (unsigned_literal false t) \/
                         rounded true (unsigned_literal false t)).
  { intros t. destruct (unsigned_literal_shape false t) as [H | H]; auto. }
  destruct (trim_start s) as [| c r]; [apply H |].
  destruct (Ascii.eqb c "+"%char) eqn:Hplus.
  - apply Ascii.eqb_eq in Hplus. subst c. apply H.
  - destruct (Ascii.eqb c "-"%char) eqn:Hminus.
    + apply Ascii.eqb_eq in Hminus. subst c.
      destruct (unsigned_literal_shape true r) as [Hn | Hr]; auto.
    + destruct c as [[] [] [] [] [] [] [] []]; try apply H;
        first [discriminate Hplus | discriminate Hminus].
Qed.

(** A parsed input that is positive is Infinity or a positive finite Number
    in canonical form. *)
Lemma parsed_positive (s : string) :
  gt (or_else (parseFloat s) zero) zero = true ->
  or_else (parseFloat s) zero = Infinity \/
  exists (m : positive) (e : Z),
    or_else (parseFloat s) zero = S754_finite false m e /\
    bounded prec emax m e = true.
Proof.
  destruct (parseFloat_shape s) as [-> | [H | H]].
  - cbn. discriminate.
  - destruct H as [-> | [-> | (m & e & -> & Hb)]]; cbn.
    + discriminate.
    + intros _. left. reflexivity.
    + intros _. right. exists m, e. split; [reflexivity | exact Hb].
  - destruct H as [-> | [-> | (m & e & -> & Hb)]]; cbn; discriminate.
Qed.

(** ** The risk for one contract is positive *)

(** Every [ticksPerPoint] is at least 4 and every [tickValue] at least 0.5. *)
Lemma instrument_magnitudes (i : InstrumentKey) :
  (exists (m : positive) (e : Z),
      ticksPerPoint (INSTRUMENT_DATA i) = S754_finite false m e /\
      bounded prec emax m e = true /\ 3 <= Zdigits2 (Zpos m) + e) /\
  (exists (m : positive) (e : Z),
      tickValue (INSTRUMENT_DATA i) = S754_finite false m e /\
      bounded prec emax m e = true /\ 0 <= Zdigits2 (Zpos m) + e).
Proof.
  destruct i; split; eexists; eexists;
    (split; [vm_compute; reflexivity |
             split; [vm_compute; reflexivity | apply Z.leb_le; vm_compute; reflexivity]]).
Qed.

Lemma rounded_above_positive (mag : Z) (x : number) :
  rounded_above false mag x -> gt x zero = true.
Proof. intros [-> | (m & e & -> & _)]; reflexivity. Qed.

(** With a positive parsed stop-loss distance the risk for one contract is
    positive: the product does not underflow to zero. *)
Lemma riskPerContract_positive (i : InstrumentKey) (slText : string) :
  gt (or_else (parseFloat slText) zero) zero = true ->
  gt (riskPerContract_of i (or_else (parseFloat slText) zero)) zero = true.
Proof.
  intros Hs. unfold riskPerContract_of.
  destruct (instrument_magnitudes i)
    as [(mp & ep & -> & Hbp & Hp) (mv & ev & -> & Hbv & Hv)].
  destruct (parsed_positive slText Hs) as [-> | (m & e & -> & Hb)]; [reflexivity |].
  destruct (bounded_inv m e Hb) as [Hshape _].
  pose proof (Zdigits2_pos m) as Hd.
  destruct (mul_above m mp e ep Hb Hbp ltac:(lia)) as [-> | (m1 & e1 & -> & Hb1 & Hm1)];
    [reflexivity |].
  apply (rounded_above_positive (Zdigits2 (Zpos m1) + e1 + (Zdigits2 (Zpos mv) + ev) - 1)).
  apply mul_above; [exact Hb1 | exact Hbv | lia].
Qed.

(** ** The two branches of [calculations] *)

Lemma typed_sizing_degenerate (i : InstrumentKey) (sl rb : number) :
  le sl zero || le rb zero = true ->
  Typed.sizing i sl rb =
  degenerate (if gt sl zero then riskPerContract_of i sl else zero).
Proof.
  intros H. unfold Typed.sizing. rewrite H. reflexivity.
Qed.

Lemma untyped_sizing_degenerate (i : InstrumentKey) (sl rb : number) :
  le sl zero || le rb zero = true ->
  Untyped.sizing i sl rb =
  degenerate (if gt sl zero then riskPerContract_of i sl else zero).
Proof.
  intros H. unfold Untyped.sizing. rewrite H. reflexivity.
Qed.

Lemma typed_sizing_regular (i : InstrumentKey) (sl rb : number) :
  le sl zero || le rb zero = false ->
  Typed.sizing i sl rb = regular nan_to_zero (riskPerContract_of i sl) rb.
Proof.
  intros H. unfold Typed.sizing. rewrite H. reflexivity.
Qed.

Lemma untyped_sizing_regular (i : InstrumentKey) (sl rb : number) :
  le sl zero || le rb zero = false ->
  Untyped.sizing i sl rb = regular non_finite_to_zero (riskPerContract_of i sl) rb.
Proof.
  intros H. unfold Untyped.sizing. rewrite H. reflexivity.
Qed.

Lemma nan_to_zero_agrees (v : number) : agrees (nan_to_zero v) v.
Proof. destruct v; split; cbn; congruence. Qed.

Lemma non_finite_to_zero_agrees (v : number) : agrees (non_finite_to_zero v) v.
Proof. destruct v; split; cbn; congruence. Qed.

Lemma non_finite_to_zero_finite (v : number) : isFinite (non_finite_to_zero v) = true.
Proof. destruct v; reflexivity. Qed.

Lemma guards_meet_on_finite (v : number) :
  isFinite (nan_to_zero v) = true -> non_finite_to_zero v = nan_to_zero v.
Proof. destruct v; cbn; congruence. Qed.

(** C1.  Whatever the instrument and the two texts, when the parsed stop-loss
    distance or the parsed risk budget is [<= 0], [calculations] returns 0 for
    the raw lot size, the floored and ceiled lot sizes and their two risks;
    and on every input it returns [slPoints * ticksPerPoint * tickValue] as
    the risk for one contract when the stop-loss distance is [> 0], and 0
    otherwise.  Both variants do. *)
Theorem degenerate_case_zeroes (i : InstrumentKey) (slText rbText : string) :
  let sl := or_else (parseFloat slText) zero in
  let rb := or_else (parseFloat rbText) zero in
  forall c : Calculations,
    c = Typed.calculations i slText rbText \/
    c = Untyped.calculations i slText rbText ->
    (le sl zero = true \/ le rb zero = true ->
     rawLotSize c = zero /\
     floorLotSize c = zero /\
     riskForFloor c = zero /\
     ceilLotSize c = zero /\
     riskForCeil c = zero) /\
    (gt sl zero = true -> riskForOneContract c = riskPerContract_of i sl) /\
    (gt sl zero = false -> riskForOneContract c = zero).
Proof.
  intros sl rb c Hc.
  destruct (le sl zero || le rb zero) eqn:Hor.
  - assert (E : c = degenerate (if gt sl zero then riskPerContract_of i sl else zero)).
    { destruct Hc as [-> | ->].
      - apply typed_sizing_degenerate, Hor.
      - apply untyped_sizing_degenerate, Hor. }
    rewrite E. cbn [degenerate rawLotSize floorLotSize riskForFloor ceilLotSize
                    riskForCeil riskForOneContract].
    split; [intros _; repeat split |]. split; intros ->; reflexivity.
  - apply orb_false_iff in Hor. destruct Hor as [Hsl Hrb].
    assert (Hpos : gt sl zero = true)
      by (apply not_le_zero_gt; [apply or_else_zero_not_nan | exact Hsl]).
    assert (E : riskForOneContract c = riskPerContract_of i sl).
    { assert (Hreg : le sl zero || le rb zero = false) by (rewrite Hsl, Hrb; reflexivity).
      destruct Hc as [-> | ->].
      - unfold Typed.calculations. fold sl rb.
        rewrite (typed_sizing_regular i sl rb Hreg). reflexivity.
      - unfold Untyped.calculations. fold sl rb.
        rewrite (untyped_sizing_regular i sl rb Hreg). reflexivity. }
    split; [| split].
    + intros [H | H]; congruence.
    + intros _. exact E.
    + intros H. congruence.
Qed.

(** Scenario D, ("NQ", "10", "0"): the risk budget is 0, everything is 0 but
    the risk for one contract, which is 200. *)
Lemma degenerate_case_zeroes_witness :
  le (or_else (parseFloat "0") zero) zero = true /\
  rawLotSize (Typed.calculations NQ "10" "0") = zero /\
  riskForOneContract (Typed.calculations NQ "10" "0") = lit 200 0.
Proof.
  split; [reflexivity |].
  destruct (degenerate_case_zeroes NQ "10" "0"
              (Typed.calculations NQ "10" "0") (or_introl eq_refl))
    as (Hzero & Hpos & _).
  destruct (Hzero (or_intror eq_refl)) as (Hraw & _).
  split; [exact Hraw |].
  rewrite Hpos; reflexivity.
Defined.

(** C2, refuted as stated: at ("NQ", "1e308", "100") both parsed inputs are
    positive, the risk for one contract is Infinity and the floored lot size
    is 0; their product is NaN, and the risk returned for the floored size is
    0, so the formulas do not hold exactly. *)
Lemma exact_formulas_fail :
  gt (or_else (parseFloat "1e308") zero) zero = true /\
  gt (or_else (parseFloat "100") zero) zero = true /\
  riskForOneContract (Typed.calculations NQ "1e308" "100") = Infinity /\
  floorLotSize (Typed.calculations NQ "1e308" "100") = zero /\
  riskForFloor (Typed.calculations NQ "1e308" "100") = zero /\
  mul zero Infinity = NaN /\
  ~ exact_formulas (Typed.calculations NQ "1e308" "100")
      (or_else (parseFloat "100") zero).
Proof.
  repeat (split; [vm_compute; reflexivity |]).
  intros (_ & _ & _ & H & _). vm_compute in H. discriminate H.
Qed.

(** C2, amended.  With both parsed inputs positive, [calculations] returns
    [slPoints * ticksPerPoint * tickValue] as the risk for one contract, and
    each of the five other figures agrees with its formula
    ([riskAmount / riskPerContract], its floor, its ceiling, and the products
    of these two with [riskPerContract]): it is the formula's value when that
    value is finite, and 0 when that value is NaN.  Both variants do.  The
    risk for one contract is positive, and no formula evaluates to NaN when
    it is finite. *)
Theorem regular_case_formulas (i : InstrumentKey) (slText rbText : string) :
  let sl := or_else (parseFloat slText) zero in
  let rb := or_else (parseFloat rbText) zero in
  gt sl zero = true ->
  gt rb zero = true ->
  forall c : Calculations,
    c = Typed.calculations i slText rbText \/
    c = Untyped.calculations i slText rbText ->
    let rpc := riskPerContract_of i sl in
    let raw := div rb rpc in
    riskForOneContract c = rpc /\
    agrees (rawLotSize c) raw /\
    agrees (floorLotSize c) (Math_floor raw) /\
    agrees (riskForFloor c) (mul (Math_floor raw) rpc) /\
    agrees (ceilLotSize c) (Math_ceil raw) /\
    agrees (riskForCeil c) (mul (Math_ceil raw) rpc) /\
    gt rpc zero = true /\
    (isFinite rpc = true ->
     isNaN raw = false /\
     isNaN (Math_floor raw) = false /\
     isNaN (mul (Math_floor raw) rpc) = false /\
     isNaN (Math_ceil raw) = false /\
     isNaN (mul (Math_ceil raw) rpc) = false).
Proof.
  intros sl rb Hs Hr c Hc rpc raw.
  pose proof (both_positive_regular sl rb Hs Hr) as Hreg.
  pose proof (riskPerContract_positive i slText Hs) as Hpos. fold sl rpc in Hpos.
  assert (Hnan : gt rpc zero = true /\
                 (isFinite rpc = true ->
                  isNaN raw = false /\
                  isNaN (Math_floor raw) = false /\
                  isNaN (mul (Math_floor raw) rpc) = false /\
                  isNaN (Math_ceil raw) = false /\
                  isNaN (mul (Math_ceil raw) rpc) = false)).
  { split; [exact Hpos |]. intros Hfin.
    exact (regular_formulas_not_nan rpc rb Hfin Hpos (or_else_zero_not_nan _)). }
  destruct Hc as [-> | ->].
  - unfold Typed.calculations. fold sl rb. rewrite (typed_sizing_regular i sl rb Hreg).
    cbn [regular rawLotSize floorLotSize riskForFloor ceilLotSize riskForCeil
         riskForOneContract].
    fold rpc raw.
    repeat (split; [first [reflexivity | apply nan_to_zero_agrees] |]). exact Hnan.
  - unfold Untyped.calculations. fold sl rb. rewrite (untyped_sizing_regular i sl rb Hreg).
    cbn [regular rawLotSize floorLotSize riskForFloor ceilLotSize riskForCeil
         riskForOneContract].
    fold rpc raw.
    repeat (split; [first [reflexivity | apply non_finite_to_zero_agrees] |]).
    exact Hnan.
Qed.

(** Scenario B, ("NQ", "10", "500"): 2.5 contracts, 2 of them risking 400
    and 3 of them risking 600, at 200 a contract. *)
Lemma regular_case_formulas_witness :
  gt (or_else (parseFloat "10") zero) zero = true /\
  gt (or_else (parseFloat "500") zero) zero = true /\
  riskForOneContract (Typed.calculations NQ "10" "500") = lit 200 0 /\
  rawLotSize (Typed.calculations NQ "10" "500") = lit 25 (-1) /\
  floorLotSize (Typed.calculations NQ "10" "500") = lit 2 0 /\
  riskForFloor (Typed.calculations NQ "10" "500") = lit 400 0 /\
  ceilLotSize (Typed.calculations NQ "10" "500") = lit 3 0 /\
  riskForCeil (Typed.calculations NQ "10" "500") = lit 600 0.
Proof.
  split; [reflexivity |]. split; [reflexivity |].
  destruct (regular_case_formulas NQ "10" "500" eq_refl eq_refl
              (Typed.calculations NQ "10" "500") (or_introl eq_refl))
    as (Hone & (Hraw & _) & (Hfloor & _) & (Hrf & _) & (Hceil & _) & (Hrc & _) & _ & _).
  rewrite Hone, (Hraw eq_refl), (Hfloor eq_refl), (Hrf eq_refl),
    (Hceil eq_refl), (Hrc eq_refl).
  repeat split; vm_compute; reflexivity.
Defined.

(** ** The half-risk toggle *)

(** C7.  From a state with the half-risk flag off, the half-risk handler
    followed by the full-risk handler gives back the risk text and leaves the
    flag off; when the risk text is "100", the half-risk handler sets it to
    "50" and the snapshot to "100", and the full-risk handler sets it back to
    "100". *)
Theorem toggle_round_trip (st : State) :
  isHalfRisk st = false ->
  riskAmount (handleFullRisk (handleHalfRisk st)) = riskAmount st /\
  isHalfRisk (handleFullRisk (handleHalfRisk st)) = false /\
  isHalfRisk (handleHalfRisk st) = true /\
  (riskAmount st = "100" ->
   riskAmount (handleHalfRisk st) = "50" /\
   fullRiskValue (handleHalfRisk st) = "100" /\
   riskAmount (handleFullRisk (handleHalfRisk st)) = "100").
Proof.
  intros Hfull. unfold handleHalfRisk, handleFullRisk. rewrite Hfull.
  cbn [negb isHalfRisk riskAmount fullRiskValue].
  split; [reflexivity |]. split; [reflexivity |]. split; [reflexivity |].
  intros Hhundred. rewrite Hhundred.
  split; [vm_compute; reflexivity | split; reflexivity].
Qed.

(** Scenario E, from the initial state. *)
Lemma toggle_round_trip_witness :
  isHalfRisk initial = false /\
  riskAmount (handleHalfRisk initial) = "50" /\
  riskAmount (handleFullRisk (handleHalfRisk initial)) = riskAmount initial.
Proof.
  split; [reflexivity |].
  destruct (toggle_round_trip initial eq_refl) as (Hback & _ & _ & Hhundred).
  destruct (Hhundred eq_refl) as (Hfifty & _ & _).
  split; [exact Hfifty | exact Hback].
Defined.

(** C8.  No event overwrites the snapshot while the half-risk flag is on, so
    an event that changes the snapshot found the flag off; an edit of the
    risk field made with the flag on leaves the snapshot as it was, and one
    made with the flag off sets the snapshot (and the risk text) to the text
    typed. *)
Theorem snapshot_written_only_when_full (e : Event) (st : State) (v : string) :
  (isHalfRisk st = true -> fullRiskValue (handle e st) = fullRiskValue st) /\
  (fullRiskValue (handle e st) <> fullRiskValue st -> isHalfRisk st = false) /\
  (isHalfRisk st = true ->
   fullRiskValue (handleRiskAmountChange v st) = fullRiskValue st /\
   riskAmount (handleRiskAmountChange v st) = v) /\
  (isHalfRisk st = false ->
   fullRiskValue (handleRiskAmountChange v st) = v /\
   riskAmount (handleRiskAmountChange v st) = v).
Proof.
  assert (Hkeep : isHalfRisk st = true ->
                  fullRiskValue (handle e st) = fullRiskValue st).
  { intros Hhalf. destruct e; cbn [handle]; try reflexivity.
    - unfold handleRiskAmountChange. rewrite Hhalf. reflexivity.
    - unfold handleHalfRisk. rewrite Hhalf. reflexivity.
    - unfold handleFullRisk. rewrite Hhalf. reflexivity. }
  split; [exact Hkeep |]. split.
  - intros Hchanged. destruct (isHalfRisk st) eqn:Hflag; [| reflexivity].
    exfalso. apply Hchanged, Hkeep. reflexivity.
  - split; intros Hflag; unfold handleRiskAmountChange; rewrite Hflag;
      split; reflexivity.
Qed.

Lemma snapshot_written_only_when_full_witness :
  isHalfRisk (handleHalfRisk initial) = true /\
  fullRiskValue (handle (EditRisk "7") (handleHalfRisk initial)) = "100" /\
  fullRiskValue (handleRiskAmountChange "7" initial) = "7".
Proof.
  split; [reflexivity |].
  destruct (snapshot_written_only_when_full (EditRisk "7") (handleHalfRisk initial) "7")
    as (Hkeep & _ & _ & _).
  destruct (snapshot_written_only_when_full (EditRisk "7") initial "7")
    as (_ & _ & _ & Hfull).
  split; [exact (Hkeep eq_refl) | exact (proj1 (Hfull eq_refl))].
Defined.

(** With the flag off the snapshot is the risk text, in every state the
    component can reach. *)
Lemma snapshot_tracks_full_risk (events : list Event) :
  forall (st : State) (m : Memo),
    (isHalfRisk st = false -> fullRiskValue st = riskAmount st) ->
    isHalfRisk (fst (run events st m)) = false ->
    fullRiskValue (fst (run events st m)) = riskAmount (fst (run events st m)).
Proof.
  induction events as [| e rest IH]; intros st m Hst; cbn [run fst].
  - exact Hst.
  - apply IH. destruct e; cbn [handle].
    + exact Hst.
    + exact Hst.
    + unfold handleRiskAmountChange. cbn [isHalfRisk fullRiskValue riskAmount].
      intros ->. reflexivity.
    + unfold handleHalfRisk. destruct (isHalfRisk st) eqn:Hflag; cbn [negb].
      * rewrite Hflag. discriminate.
      * cbn [isHalfRisk]. discriminate.
    + unfold handleFullRisk. destruct (isHalfRisk st) eqn:Hflag.
      * cbn [isHalfRisk fullRiskValue riskAmount]. reflexivity.
      * rewrite Hflag. exact Hst.
Qed.

(** C9.  The full-risk handler with the flag off, and the half-risk handler
    with the flag on, return the state they were given: risk text, snapshot
    and flag are untouched, and so is the rest. *)
Theorem wrong_state_trigger_is_noop (st : State) :
  (isHalfRisk st = false -> handleFullRisk st = st) /\
  (isHalfRisk st = true -> handleHalfRisk st = st).
Proof.
  split; intros Hflag.
  - unfold handleFullRisk. rewrite Hflag. reflexivity.
  - unfold handleHalfRisk. rewrite Hflag. reflexivity.
Qed.

Lemma wrong_state_trigger_is_noop_witness :
  isHalfRisk initial = false /\
  handleFullRisk initial = initial /\
  handleHalfRisk (handleHalfRisk initial) = handleHalfRisk initial.
Proof.
  split; [reflexivity |].
  split.
  - exact (proj1 (wrong_state_trigger_is_noop initial) eq_refl).
  - exact (proj2 (wrong_state_trigger_is_noop (handleHalfRisk initial)) eq_refl).
Defined.



(** ** The memoized computation is a function of its three inputs *)

Lemma InstrumentKey_eqb_eq (a b : InstrumentKey) :
  InstrumentKey_eqb a b = true -> a = b.
Proof.
  destruct a, b; intros H; try reflexivity; vm_compute in H; discriminate H.
Qed.

Lemma deps_eqb_eq (a b : string * string * InstrumentKey) :
  deps_eqb a b = true -> a = b.
Proof.
  destruct a as [[a1 a2] a3], b as [[b1 b2] b3]. unfold deps_eqb.
  intros H. apply andb_true_iff in H. destruct H as [H H3].
  apply andb_true_iff in H. destruct H as [H1 H2].
  apply String.eqb_eq in H1. apply String.eqb_eq in H2.
  apply InstrumentKey_eqb_eq in H3. congruence.
Qed.

Lemma render_fresh (st : State) (cell : option Memo) :
  cell_sound cell -> fresh st (render st cell).
Proof.
  intros Hsound. unfold render, useMemo.
  destruct cell as [m |]; [| split; reflexivity].
  destruct (deps_eqb (memo_deps m) (stopLossPoints st, riskAmount st, instrument st))
    eqn:Hdeps; [| split; reflexivity].
  apply deps_eqb_eq in Hdeps. cbn in Hsound. unfold memo_sound in Hsound.
  split; [exact Hdeps |]. rewrite Hsound, Hdeps. reflexivity.
Qed.

Lemma fresh_sound (st : State) (m : Memo) : fresh st m -> memo_sound m.
Proof.
  intros [Hd Hv]. unfold memo_sound. rewrite Hv, Hd. reflexivity.
Qed.

Lemma run_fresh (events : list Event) :
  forall (st : State) (m : Memo),
    fresh st m -> fresh (fst (run events st m)) (snd (run events st m)).
Proof.
  induction events as [| e rest IH]; intros st m Hm; cbn [run fst snd].
  - exact Hm.
  - apply IH, render_fresh. cbn. exact (fresh_sound st m Hm).
Qed.

(** *** The function as it runs *)

(** Looking a known key up in the table of the literal gives the entry of
    [INSTRUMENT_DATA]. *)
Lemma Get_known (k : InstrumentKey) :
  Script.Get Script.table (key_text k) = Script.Own (INSTRUMENT_DATA k).
Proof. destruct k; reflexivity. Qed.

Lemma own_missing (key : string) :
  ~ known key -> Script.own Script.table key = None.
Proof.
  intros H.
  assert (Hne : forall k : InstrumentKey, String.eqb (key_text k) key = false).
  { intros k. apply String.eqb_neq. intros E. apply H. exists k. symmetry. exact E. }
  unfold Script.table. cbn [Script.own].
  rewrite (Hne NQ : String.eqb "NQ" key = false).
  rewrite (Hne MNQ : String.eqb "MNQ" key = false).
  rewrite (Hne ES : String.eqb "ES" key = false).
  rewrite (Hne MES : String.eqb "MES" key = false).
  rewrite (Hne GC : String.eqb "GC" key = false).
  rewrite (Hne MGC : String.eqb "MGC" key = false).
  reflexivity.
Qed.

Lemma not_inherited (key : string) :
  ~ In key Script.Object_prototype ->
  existsb (String.eqb key) Script.Object_prototype = false.
Proof.
  intros H. destruct (existsb (String.eqb key) Script.Object_prototype) eqn:E;
    [| reflexivity].
  exfalso. apply H. apply existsb_exists in E. destruct E as (x & Hin & Hx).
  apply String.eqb_eq in Hx. subst x. exact Hin.
Qed.

Lemma Get_unlisted (key : string) :
  ~ known key -> ~ In key Script.Object_prototype ->
  Script.Get Script.table key = Script.Undefined.
Proof.
  intros Hk Hp. unfold Script.Get. rewrite (own_missing key Hk), (not_inherited key Hp).
  reflexivity.
Qed.

Lemma typed_script_returns : returns_as Script.Typed.calculations Typed.calculations.
Proof.
  intros sc k Ht Hk.
  unfold Script.Typed.calculations, Script.bind, Script.read.
  rewrite Ht, Hk, Get_known.
  cbn [Script.destructure Script.ret fst snd Script.ToNumber].
  unfold Typed.calculations, Typed.sizing.
  destruct (le (or_else (parseFloat (Script.stopLossPoints sc)) zero) zero
            || le (or_else (parseFloat (Script.riskAmount sc)) zero) zero);
    reflexivity.
Qed.

Lemma untyped_script_returns : returns_as Script.Untyped.calculations Untyped.calculations.
Proof.
  intros sc k Ht Hk.
  unfold Script.Untyped.calculations, Script.bind, Script.read.
  rewrite Ht, Hk, Get_known.
  cbn [Script.destructure Script.ret fst snd Script.ToNumber].
  unfold Untyped.calculations, Untyped.sizing.
  destruct (le (or_else (parseFloat (Script.stopLossPoints sc)) zero) zero
            || le (or_else (parseFloat (Script.riskAmount sc)) zero) zero);
    reflexivity.
Qed.

Lemma returns_repeatable (body : Script.Run Calculations)
    (pure : InstrumentKey -> string -> string -> Calculations) :
  returns_as body pure -> repeatable body.
Proof.
  intros Hret sc Ht [k Hk].
  exists (pure k (Script.stopLossPoints sc) (Script.riskAmount sc)).
  unfold Script.bind. rewrite (Hret sc k Ht Hk), (Hret sc k Ht Hk). reflexivity.
Qed.

Lemma returns_input_determined (body : Script.Run Calculations)
    (pure : InstrumentKey -> string -> string -> Calculations) :
  returns_as body pure -> input_determined body.
Proof.
  intros Hret a b Ha Hb [k Hk] (Hi & Hs & Hr).
  exists (pure k (Script.stopLossPoints a) (Script.riskAmount a)).
  rewrite (Hret a k Ha Hk).
  rewrite (Hret b k Hb) by (rewrite <- Hi; exact Hk).
  rewrite Hs, Hr. split; reflexivity.
Qed.

Lemma typed_script_throws : throws_on_unlisted Script.Typed.calculations.
Proof.
  intros sc Ht Hk Hp.
  unfold Script.Typed.calculations, Script.bind, Script.read.
  rewrite Ht, (Get_unlisted _ Hk Hp). reflexivity.
Qed.

Lemma untyped_script_throws : throws_on_unlisted Script.Untyped.calculations.
Proof.
  intros sc Ht Hk Hp.
  unfold Script.Untyped.calculations, Script.bind, Script.read.
  rewrite Ht, (Get_unlisted _ Hk Hp). reflexivity.
Qed.

(** C4.  The function handed to [useMemo], run as the source writes it over
    the scope it closes over, where it could throw and could read any of the
    variables: on every known key and every two texts it completes
    normally, returns the bundle of the function [calculations] of the key
    and the two texts, and leaves the scope as it found it; called twice in
    a row it returns the same bundle twice; in two scopes that agree on the
    key and the two texts it returns the same bundle, whatever the half-risk
    flag and the snapshot are.  This holds of both variants.  The
    restriction to known keys is needed: on a key that names no property of
    the table the function throws a [TypeError].  And the value [useMemo]
    keeps never shows: after any sequence of events, what the render
    displays is what the function returns when run in the scope of the
    current state. *)
Theorem calculations_total_and_deterministic :
  (returns_as Script.Typed.calculations Typed.calculations /\
   repeatable Script.Typed.calculations /\
   input_determined Script.Typed.calculations /\
   throws_on_unlisted Script.Typed.calculations) /\
  (returns_as Script.Untyped.calculations Untyped.calculations /\
   repeatable Script.Untyped.calculations /\
   input_determined Script.Untyped.calculations /\
   throws_on_unlisted Script.Untyped.calculations) /\
  (forall events : list Event,
      Script.Typed.calculations (scope_of (fst (session events))) =
      (Script.Normal (memo_value (snd (session events))),
       scope_of (fst (session events)))).
Proof.
  split; [| split].
  - split; [exact typed_script_returns |].
    split; [exact (returns_repeatable _ _ typed_script_returns) |].
    split; [exact (returns_input_determined _ _ typed_script_returns) |].
    exact typed_script_throws.
  - split; [exact untyped_script_returns |].
    split; [exact (returns_repeatable _ _ untyped_script_returns) |].
    split; [exact (returns_input_determined _ _ untyped_script_returns) |].
    exact untyped_script_throws.
  - intros events.
    assert (Hshown : fresh (fst (session events)) (snd (session events))).
    { unfold session. apply run_fresh, render_fresh. exact I. }
    rewrite (typed_script_returns (scope_of (fst (session events)))
               (instrument (fst (session events))) eq_refl eq_refl).
    cbn [scope_of Script.stopLossPoints Script.riskAmount].
    rewrite (proj2 Hshown). reflexivity.
Qed.

Lemma calculations_total_and_deterministic_witness :
  Script.Typed.calculations
    {| Script.instrument := "ES";
       Script.stopLossPoints := "2.5";
       Script.riskAmount := "";
       Script.isHalfRisk := true;
       Script.fullRiskValue := "300";
       Script.INSTRUMENT_DATA := Script.table |} =
  (Script.Normal (Typed.calculations ES "2.5" ""),
   {| Script.instrument := "ES";
      Script.stopLossPoints := "2.5";
      Script.riskAmount := "";
      Script.isHalfRisk := true;
      Script.fullRiskValue := "300";
      Script.INSTRUMENT_DATA := Script.table |}) /\
  Script.Untyped.calculations
    {| Script.instrument := "SI";
       Script.stopLossPoints := "10";
       Script.riskAmount := "100";
       Script.isHalfRisk := false;
       Script.fullRiskValue := "100";
       Script.INSTRUMENT_DATA := Script.table |} =
  (Script.Throw Script.TypeError,
   {| Script.instrument := "SI";
      Script.stopLossPoints := "10";
      Script.riskAmount := "100";
      Script.isHalfRisk := false;
      Script.fullRiskValue := "100";
      Script.INSTRUMENT_DATA := Script.table |}).
Proof.
  destruct calculations_total_and_deterministic
    as ((Hreturns & _) & (_ & _ & _ & Hthrows) & _).
  split.
  - exact (Hreturns
             {| Script.instrument := "ES";
                Script.stopLossPoints := "2.5";
                Script.riskAmount := "";
                Script.isHalfRisk := true;
                Script.fullRiskValue := "300";
                Script.INSTRUMENT_DATA := Script.table |} ES eq_refl eq_refl).
  - apply Hthrows; [reflexivity | |].
    + intros [k Hk]. destruct k; discriminate Hk.
    + cbn. intros H. repeat (destruct H as [H | H]; [discriminate H |]). exact H.
Defined.

(** ** Where the two variants part: a quotient or a product that overflows *)

Lemma untyped_figures_finite (i : InstrumentKey) (sl rb : number) :
  figures_finite (Untyped.sizing i sl rb).
Proof.
  unfold figures_finite. destruct (le sl zero || le rb zero) eqn:Hdeg.
  - rewrite (untyped_sizing_degenerate i sl rb Hdeg). repeat split.
  - rewrite (untyped_sizing_regular i sl rb Hdeg).
    cbn [regular rawLotSize floorLotSize riskForFloor ceilLotSize riskForCeil].
    repeat split; apply non_finite_to_zero_finite.
Qed.

(** The variants return the same bundle wherever the five figures of the
    TypeScript one are finite. *)
Lemma variants_agree_on_finite (i : InstrumentKey) (sl rb : number) :
  figures_finite (Typed.sizing i sl rb) ->
  Untyped.sizing i sl rb = Typed.sizing i sl rb.
Proof.
  unfold figures_finite. destruct (le sl zero || le rb zero) eqn:Hdeg.
  - intros _. rewrite (untyped_sizing_degenerate i sl rb Hdeg).
    rewrite (typed_sizing_degenerate i sl rb Hdeg). reflexivity.
  - rewrite (untyped_sizing_regular i sl rb Hdeg).
    rewrite (typed_sizing_regular i sl rb Hdeg).
    cbn [regular rawLotSize floorLotSize riskForFloor ceilLotSize riskForCeil].
    intros (H1 & H2 & H3 & H4 & H5). unfold regular.
    rewrite !guards_meet_on_finite by assumption. reflexivity.
Qed.

Lemma nan_to_zero_not_nan (v : number) : isNaN (nan_to_zero v) = false.
Proof. destruct v; reflexivity. Qed.

Lemma typed_figures_not_nan (i : InstrumentKey) (sl rb : number) :
  isNaN (rawLotSize (Typed.sizing i sl rb)) = false /\
  isNaN (floorLotSize (Typed.sizing i sl rb)) = false /\
  isNaN (riskForFloor (Typed.sizing i sl rb)) = false /\
  isNaN (ceilLotSize (Typed.sizing i sl rb)) = false /\
  isNaN (riskForCeil (Typed.sizing i sl rb)) = false.
Proof.
  destruct (le sl zero || le rb zero) eqn:Hdeg.
  - rewrite (typed_sizing_degenerate i sl rb Hdeg). repeat split.
  - rewrite (typed_sizing_regular i sl rb Hdeg).
    cbn [regular rawLotSize floorLotSize riskForFloor ceilLotSize riskForCeil].
    repeat split; apply nan_to_zero_not_nan.
Qed.

(** C3.  The JavaScript variant returns five finite figures on every input.
    The TypeScript variant tests [isNaN] only: none of its five figures is
    ever NaN, but at ("NQ", "1e-10", "1e308") the risk for one contract is
    2e-9, the quotient overflows, and the raw, floored and ceiled lot sizes
    and both risks come back as Infinity. *)
Theorem typed_returns_infinity :
  (forall (i : InstrumentKey) (slText rbText : string),
      figures_finite (Untyped.calculations i slText rbText)) /\
  (forall (i : InstrumentKey) (slText rbText : string),
      isNaN (rawLotSize (Typed.calculations i slText rbText)) = false /\
      isNaN (floorLotSize (Typed.calculations i slText rbText)) = false /\
      isNaN (riskForFloor (Typed.calculations i slText rbText)) = false /\
      isNaN (ceilLotSize (Typed.calculations i slText rbText)) = false /\
      isNaN (riskForCeil (Typed.calculations i slText rbText)) = false) /\
  Typed.calculations NQ "1e-10" "1e308" =
  {| rawLotSize := Infinity;
     floorLotSize := Infinity;
     riskForFloor := Infinity;
     ceilLotSize := Infinity;
     riskForCeil := Infinity;
     riskForOneContract := lit 2 (-9) |} /\
  ~ figures_finite (Typed.calculations NQ "1e-10" "1e308").
Proof.
  split; [| split; [| split]].
  - intros i slText rbText. unfold Untyped.calculations.
    apply untyped_figures_finite.
  - intros i slText rbText. unfold Typed.calculations.
    apply typed_figures_not_nan.
  - vm_compute. reflexivity.
  - intros (H & _). vm_compute in H. discriminate H.
Qed.

(** C5.  The two variants return different bundles at ("NQ", "1e-10",
    "1e308"): five times Infinity in the TypeScript variant, five times 0 in
    the JavaScript one.  They also differ at ("MGC", "1e307", "1.5e308"),
    where only the risk of the ceiled size overflows.  They return the same
    bundle on every input where the five figures of the TypeScript variant
    are finite. *)
Theorem variants_differ :
  Typed.calculations NQ "1e-10" "1e308" <> Untyped.calculations NQ "1e-10" "1e308" /\
  rawLotSize (Typed.calculations NQ "1e-10" "1e308") = Infinity /\
  rawLotSize (Untyped.calculations NQ "1e-10" "1e308") = zero /\
  riskForCeil (Typed.calculations MGC "1e307" "1.5e308") = Infinity /\
  riskForCeil (Untyped.calculations MGC "1e307" "1.5e308") = zero /\
  (forall (i : InstrumentKey) (slText rbText : string),
      figures_finite (Typed.calculations i slText rbText) ->
      Untyped.calculations i slText rbText = Typed.calculations i slText rbText).
Proof.
  split.
  - intros H. apply (f_equal rawLotSize) in H. vm_compute in H. discriminate H.
  - do 4 (split; [vm_compute; reflexivity |]).
    intros i slText rbText. unfold Typed.calculations, Untyped.calculations.
    apply variants_agree_on_finite.
Qed.

(** C6.  With both parsed inputs positive, the JavaScript variant returns
    [floor <= raw <= ceil] with [ceil - floor] either 0 or 1 on every input,
    and the TypeScript variant does wherever its raw lot size is finite.  At
    ("NQ", "1e-10", "1e308") both parsed inputs are positive and the
    TypeScript variant returns Infinity for the floored and the ceiled lot
    size; their difference is NaN, which is neither 0 nor 1. *)
Theorem typed_bracket_fails :
  (forall (i : InstrumentKey) (slText rbText : string),
      gt (or_else (parseFloat slText) zero) zero = true ->
      gt (or_else (parseFloat rbText) zero) zero = true ->
      bracketed (Untyped.calculations i slText rbText) /\
      (isFinite (rawLotSize (Typed.calculations i slText rbText)) = true ->
       bracketed (Typed.calculations i slText rbText))) /\
  gt (or_else (parseFloat "1e-10") zero) zero = true /\
  gt (or_else (parseFloat "1e308") zero) zero = true /\
  floorLotSize (Typed.calculations NQ "1e-10" "1e308") = Infinity /\
  ceilLotSize (Typed.calculations NQ "1e-10" "1e308") = Infinity /\
  sub (ceilLotSize (Typed.calculations NQ "1e-10" "1e308"))
      (floorLotSize (Typed.calculations NQ "1e-10" "1e308")) = NaN /\
  ~ bracketed (Typed.calculations NQ "1e-10" "1e308").
Proof.
  split.
  - intros i slText rbText Hs Hr.
    pose proof (both_positive_regular _ _ Hs Hr) as Hreg.
    unfold Typed.calculations, Untyped.calculations.
    rewrite (typed_sizing_regular i _ _ Hreg), (untyped_sizing_regular i _ _ Hreg).
    apply regular_bracketed, raw_quotient_shape;
      [exact Hr | apply riskPerContract_non_negative, Hs].
  - do 5 (split; [vm_compute; reflexivity |]).
    intros (_ & _ & [H | H]); vm_compute in H; discriminate H.
Qed.

(** ** More about the toggle *)

Lemma handleAll_app (xs ys : list Event) (st : State) :
  handleAll (xs ++ ys) st = handleAll ys (handleAll xs st).
Proof. unfold handleAll. apply fold_left_app. Qed.

Lemma run_state (events : list Event) :
  forall (st : State) (m : Memo), fst (run events st m) = handleAll events st.
Proof.
  induction events as [| e rest IH]; intros st m; cbn [run handleAll fold_left].
  - reflexivity.
  - apply IH.
Qed.

(** While the flag is on, an event other than a click on "Full R" leaves the
    flag on and the snapshot as it is. *)
Lemma handle_keeps_half (e : Event) (st : State) :
  isHalfRisk st = true ->
  is_ClickFullR e = false ->
  isHalfRisk (handle e st) = true /\ fullRiskValue (handle e st) = fullRiskValue st.
Proof.
  intros Hhalf He. destruct e; cbn [handle]; try discriminate He.
  - split; [exact Hhalf | reflexivity].
  - split; [exact Hhalf | reflexivity].
  - unfold handleRiskAmountChange. cbn [isHalfRisk fullRiskValue].
    rewrite Hhalf. split; reflexivity.
  - unfold handleHalfRisk. rewrite Hhalf. split; [exact Hhalf | reflexivity].
Qed.

Lemma handleAll_keeps_half (events : list Event) :
  forall st : State,
    isHalfRisk st = true ->
    forallb (fun e => negb (is_ClickFullR e)) events = true ->
    isHalfRisk (handleAll events st) = true /\
    fullRiskValue (handleAll events st) = fullRiskValue st.
Proof.
  induction events as [| e rest IH]; intros st Hhalf Hev; cbn [handleAll fold_left].
  - split; [exact Hhalf | reflexivity].
  - cbn [forallb] in Hev. apply andb_true_iff in Hev. destruct Hev as [He Hrest].
    apply negb_true_iff in He.
    destruct (handle_keeps_half e st Hhalf He) as [Hflag Hsnap].
    destruct (IH (handle e st) Hflag Hrest) as [Hflag' Hsnap'].
    split; [exact Hflag' | rewrite <- Hsnap; exact Hsnap'].
Qed.

(** X1 (state, lines 65-69; handlers, lines 119-140).  An invariant of the
    component: after any sequence of events from the initial state, whenever
    the half-risk flag is off the snapshot [fullRiskValue] is the text of the
    risk field. *)
Theorem snapshot_is_risk_when_full (events : list Event) :
  isHalfRisk (fst (session events)) = false ->
  fullRiskValue (fst (session events)) = riskAmount (fst (session events)).
Proof.
  unfold session. apply snapshot_tracks_full_risk. intros _. reflexivity.
Qed.

Lemma snapshot_is_risk_when_full_witness :
  isHalfRisk (fst (session [EditRisk "250"; ClickHalfR; EditRisk "90"; ClickFullR])) = false /\
  fullRiskValue (fst (session [EditRisk "250"; ClickHalfR; EditRisk "90"; ClickFullR])) = "250" /\
  riskAmount (fst (session [EditRisk "250"; ClickHalfR; EditRisk "90"; ClickFullR])) = "250".
Proof.
  split; [reflexivity |].
  pose proof (snapshot_is_risk_when_full
                [EditRisk "250"; ClickHalfR; EditRisk "90"; ClickFullR] eq_refl) as H.
  split; [reflexivity | rewrite <- H; reflexivity].
Defined.

(** X2 ([handleHalfRisk], [handleRiskAmountChange] and [handleFullRisk],
    lines 119-140).  Halving from full risk, then any events other than a
    click on "Full R" (edits of either field, instrument changes, further
    "Half R" triggers), then restoring: the risk field shows again the text
    it had before the halving, the snapshot holds that text, and the flag is
    off.  What was typed in the risk field in between is lost. *)
Theorem restore_brings_back_halved_risk (st : State) (events : list Event) :
  isHalfRisk st = false ->
  forallb (fun e => negb (is_ClickFullR e)) events = true ->
  let st' := handleFullRisk (handleAll events (handleHalfRisk st)) in
  riskAmount st' = riskAmount st /\
  fullRiskValue st' = riskAmount st /\
  isHalfRisk st' = false.
Proof.
  intros Hfull Hev.
  assert (Hhalf : isHalfRisk (handleHalfRisk st) = true)
    by (unfold handleHalfRisk; rewrite Hfull; reflexivity).
  assert (Hsnap : fullRiskValue (handleHalfRisk st) = riskAmount st)
    by (unfold handleHalfRisk; rewrite Hfull; reflexivity).
  destruct (handleAll_keeps_half events (handleHalfRisk st) Hhalf Hev) as [Hflag Hkeep].
  cbv zeta. unfold handleFullRisk. rewrite Hflag.
  cbn [riskAmount fullRiskValue isHalfRisk]. rewrite Hkeep, Hsnap.
  repeat split.
Qed.

Lemma restore_brings_back_halved_risk_witness :
  isHalfRisk initial = false /\
  riskAmount
    (handleFullRisk
       (handleAll [EditRisk "7"; SelectInstrument GC; ClickHalfR; EditRisk ""]
          (handleHalfRisk initial))) = "100".
Proof.
  split; [reflexivity |].
  exact (proj1 (restore_brings_back_halved_risk initial
                  [EditRisk "7"; SelectInstrument GC; ClickHalfR; EditRisk ""]
                  eq_refl eq_refl)).
Defined.

Lemma clickRiskButton_flips (st : State) :
  isHalfRisk (clickRiskButton st) = negb (isHalfRisk st).
Proof.
  unfold clickRiskButton, View.riskButton.
  destruct (isHalfRisk st) eqn:Hflag; cbn [snd].
  - unfold handleFullRisk. rewrite Hflag. reflexivity.
  - unfold handleHalfRisk. rewrite Hflag. reflexivity.
Qed.

Lemma clicks_from_full (st : State) (n : nat) :
  isHalfRisk st = false ->
  let s := Nat.iter n clickRiskButton st in
  isHalfRisk s = Nat.odd n /\
  riskAmount s =
    (if Nat.odd n then Number_toString (div (parseFloat (riskAmount st)) (lit 2 0))
     else riskAmount st) /\
  (n <> 0%nat -> fullRiskValue s = riskAmount st) /\
  instrument s = instrument st /\
  stopLossPoints s = stopLossPoints st.
Proof.
  intros Hfull. induction n as [| n IH].
  - cbn. repeat split; try assumption. intros H; contradiction.
  - cbv zeta in IH |- *.
    change (Nat.iter (S n) clickRiskButton st)
      with (clickRiskButton (Nat.iter n clickRiskButton st)).
    rewrite Nat.odd_succ, <- Nat.negb_odd.
    destruct IH as (Hflag & Hrisk & Hsnap & Hinst & Hsl).
    set (s := Nat.iter n clickRiskButton st) in *.
    unfold clickRiskButton, View.riskButton.
    destruct (Nat.odd n) eqn:Hodd; rewrite Hflag; cbn [snd negb].
    + unfold handleFullRisk. rewrite Hflag.
      cbn [isHalfRisk riskAmount fullRiskValue instrument stopLossPoints].
      assert (Hn : n <> 0%nat) by (intros ->; discriminate Hodd).
      rewrite (Hsnap Hn). repeat split; assumption.
    + unfold handleHalfRisk. rewrite Hflag.
      cbn [negb isHalfRisk riskAmount fullRiskValue instrument stopLossPoints].
      rewrite Hrisk. repeat split; assumption.
Qed.

(** X3 (the button beside the risk field, lines 193-197, with its two
    handlers, lines 127-140).  The button always offers the handler that
    acts: each click flips the flag.  Clicked [n] times from full risk, the
    flag is on exactly when [n] is odd, and the risk field then shows half of
    the starting amount, as [toString] prints it; when [n] is even it shows
    the starting text itself, so repeated clicks never halve twice. *)
Theorem risk_button_never_drifts (st : State) (n : nat) :
  isHalfRisk st = false ->
  isHalfRisk (clickRiskButton (Nat.iter n clickRiskButton st)) =
  negb (isHalfRisk (Nat.iter n clickRiskButton st)) /\
  isHalfRisk (Nat.iter n clickRiskButton st) = Nat.odd n /\
  riskAmount (Nat.iter n clickRiskButton st) =
    (if Nat.odd n then Number_toString (div (parseFloat (riskAmount st)) (lit 2 0))
     else riskAmount st).
Proof.
  intros Hfull. split; [apply clickRiskButton_flips |].
  destruct (clicks_from_full st n Hfull) as (Hflag & Hrisk & _).
  split; assumption.
Qed.

Lemma risk_button_never_drifts_witness :
  isHalfRisk initial = false /\
  riskAmount (Nat.iter 7 clickRiskButton initial) = "50" /\
  riskAmount (Nat.iter 8 clickRiskButton initial) = "100".
Proof.
  split; [reflexivity |].
  destruct (risk_button_never_drifts initial 7 eq_refl) as (_ & _ & H7).
  destruct (risk_button_never_drifts initial 8 eq_refl) as (_ & _ & H8).
  split; [rewrite H7 | rewrite H8]; vm_compute; reflexivity.
Defined.

(** X8 (the instrument selector, lines 169-181).  The selector shows one
    button per instrument, labelled by its key, in the order of
    [INSTRUMENT_DATA]; exactly one is drawn as selected, the one of the
    current instrument; every instrument has a button, and after a click on
    it that button is the selected one. *)
Theorem one_instrument_button_selected (st : State) (k : InstrumentKey) :
  map View.text (View.instrumentButtons st) = map key_text View.keys /\
  map View.onClick (filter View.selected (View.instrumentButtons st)) = [instrument st] /\
  In k (map View.onClick (View.instrumentButtons st)) /\
  map View.onClick (filter View.selected (View.instrumentButtons (setInstrument k st))) = [k].
Proof.
  split; [reflexivity |]. split; [| split].
  - unfold View.instrumentButtons. destruct (instrument st); reflexivity.
  - destruct k; cbn; tauto.
  - unfold View.instrumentButtons. cbn [instrument setInstrument]. destruct k; reflexivity.
Qed.

(** ** The two branches, for both variants at once *)

Lemma calculations_cases (i : InstrumentKey) (slText rbText : string) :
  let sl := or_else (parseFloat slText) zero in
  let rb := or_else (parseFloat rbText) zero in
  (le sl zero || le rb zero = true /\
   Typed.calculations i slText rbText =
     degenerate (if gt sl zero then riskPerContract_of i sl else zero) /\
   Untyped.calculations i slText rbText =
     degenerate (if gt sl zero then riskPerContract_of i sl else zero)) \/
  (gt sl zero = true /\ gt rb zero = true /\
   Typed.calculations i slText rbText = regular nan_to_zero (riskPerContract_of i sl) rb /\
   Untyped.calculations i slText rbText =
     regular non_finite_to_zero (riskPerContract_of i sl) rb).
Proof.
  intros sl rb. unfold Typed.calculations, Untyped.calculations. fold sl rb.
  destruct (le sl zero || le rb zero) eqn:Hor.
  - left. split; [reflexivity |]. split.
    + apply typed_sizing_degenerate, Hor.
    + apply untyped_sizing_degenerate, Hor.
  - right. pose proof Hor as Hreg. apply orb_false_iff in Hor. destruct Hor as [Hsl Hrb].
    split; [apply not_le_zero_gt; [apply or_else_zero_not_nan | exact Hsl] |].
    split; [apply not_le_zero_gt; [apply or_else_zero_not_nan | exact Hrb] |].
    split.
    + apply typed_sizing_regular, Hreg.
    + apply untyped_sizing_regular, Hreg.
Qed.

(** ** Whole numbers *)

Lemma of_Z_whole (z : Z) :
  0 <= z -> Zdigits2 z <= 53 -> Math_floor (of_Z false z) = of_Z false z.
Proof.
  intros Hz Hd. destruct z as [| p | p]; [reflexivity | | lia].
  pose proof (Zdigits2_pos p) as Hd1.
  destruct (binary_normalize_exact p 0 Hd ltac:(lia)) as (mz & Hn & Hmz).
  unfold of_Z. rewrite Hn. cbn [Math_floor].
  set (d := Zdigits2 (Zpos p)) in *.
  destruct (0 <=? d + 0 - 53) eqn:Hsign; [reflexivity |].
  apply Z.leb_gt in Hsign.
  replace (- (d + 0 - 53)) with (53 - d) by lia.
  assert (Hq : Z.shiftr (Zpos mz) (53 - d) = Zpos p).
  { rewrite Z.shiftr_div_pow2 by lia. rewrite Hmz.
    apply Z.div_mul. pose proof (pow2_pos (53 - d) ltac:(lia)). lia. }
  rewrite Hq.
  fold (of_Z false (Zpos p)). unfold of_Z. exact Hn.
Qed.

(** The floor and the ceiling of a positive Number are whole. *)
Lemma floor_ceil_whole (m : positive) (e : Z) :
  bounded prec emax m e = true ->
  Math_floor (Math_floor (S754_finite false m e)) = Math_floor (S754_finite false m e) /\
  Math_floor (Math_ceil (S754_finite false m e)) = Math_ceil (S754_finite false m e).
Proof.
  intros Hb. destruct (bounded_inv m e Hb) as [Hshape _].
  cbn [Math_floor Math_ceil].
  destruct (0 <=? e) eqn:Hsign.
  { cbn [Math_floor]. rewrite Hsign. split; reflexivity. }
  apply Z.leb_gt in Hsign.
  rewrite Z.shiftr_div_pow2 by lia.
  pose proof (pow2_le 1 (- e) ltac:(lia)) as HK. change (2 ^ 1) with 2 in HK.
  set (K := 2 ^ (- e)) in *.
  pose proof (Z.div_mod (Zpos m) K ltac:(lia)) as Hdm.
  pose proof (Z.mod_pos_bound (Zpos m) K ltac:(lia)) as Hr.
  assert (Hq0 : 0 <= Zpos m / K) by (apply Z.div_pos; lia).
  set (q := Zpos m / K) in *. set (r := Zpos m mod K) in *.
  clearbody q r K.
  assert (Hq1 : q + 1 <= Zpos m) by nia.
  assert (Hdm53 : Zdigits2 (Zpos m) <= 53) by lia.
  assert (Hdq : Zdigits2 q <= 53).
  { pose proof (Zdigits2_le q (Zpos m) ltac:(lia)). lia. }
  assert (Hdq1 : Zdigits2 (q + 1) <= 53).
  { pose proof (Zdigits2_le (q + 1) (Zpos m) ltac:(lia)). lia. }
  split; [apply of_Z_whole; assumption |].
  destruct (Zpos m =? Z.shiftl q (- e)); apply of_Z_whole; assumption || lia.
Qed.

Lemma guarded_whole (x : number) :
  quotient_shape x ->
  Math_floor (nan_to_zero (Math_floor x)) = nan_to_zero (Math_floor x) /\
  Math_floor (nan_to_zero (Math_ceil x)) = nan_to_zero (Math_ceil x) /\
  Math_floor (non_finite_to_zero (Math_floor x)) = non_finite_to_zero (Math_floor x) /\
  Math_floor (non_finite_to_zero (Math_ceil x)) = non_finite_to_zero (Math_ceil x).
Proof.
  intros [-> | [-> | [-> | (m & e & -> & Hb)]]]; try (repeat split; reflexivity).
  destruct (bracket m e Hb) as (Hf & Hc & _).
  destruct (floor_ceil_whole m e Hb) as [Hwf Hwc].
  destruct (guards_keep_finite _ Hf) as [-> ->].
  destruct (guards_keep_finite _ Hc) as [-> ->].
  repeat split; assumption.
Qed.

(** X4 ([calculations], lines 82-116 and 312-350).  On every input, in both
    variants, the floor and the ceiling lot sizes have no fractional part:
    [Math.floor] leaves each of them as it is. *)
Theorem lot_sizes_are_whole (i : InstrumentKey) (slText rbText : string) :
  Math_floor (floorLotSize (Typed.calculations i slText rbText)) =
    floorLotSize (Typed.calculations i slText rbText) /\
  Math_floor (ceilLotSize (Typed.calculations i slText rbText)) =
    ceilLotSize (Typed.calculations i slText rbText) /\
  Math_floor (floorLotSize (Untyped.calculations i slText rbText)) =
    floorLotSize (Untyped.calculations i slText rbText) /\
  Math_floor (ceilLotSize (Untyped.calculations i slText rbText)) =
    ceilLotSize (Untyped.calculations i slText rbText).
Proof.
  destruct (calculations_cases i slText rbText)
    as [(_ & -> & ->) | (Hs & Hr & -> & ->)].
  - repeat split.
  - cbn [regular floorLotSize ceilLotSize].
    apply guarded_whole, raw_quotient_shape;
      [exact Hr | apply riskPerContract_non_negative, Hs].
Qed.

(** ** Nothing is negative *)

Lemma rounded_non_negative (x : number) : rounded false x -> non_negative x.
Proof.
  intros [-> | [-> | (m & e & -> & _)]];
    [left | right; left | right; right; eauto]; reflexivity.
Qed.

Lemma of_Z_non_negative (z : Z) : 0 <= z -> non_negative (of_Z false z).
Proof.
  intros Hz. destruct z as [| p | p]; [left; reflexivity | | lia].
  apply rounded_non_negative. unfold of_Z, binary_normalize. apply binary_round_rounded.
Qed.

Lemma floor_ceil_non_negative (x : number) :
  non_negative x -> non_negative (Math_floor x) /\ non_negative (Math_ceil x).
Proof.
  intros [-> | [-> | (m & e & ->)]].
  - split; left; reflexivity.
  - split; right; left; reflexivity.
  - cbn [Math_floor Math_ceil].
    destruct (0 <=? e); [split; right; right; eauto |].
    assert (Hq : 0 <= Z.shiftr (Zpos m) (- e)) by (apply Z.shiftr_nonneg; lia).
    split; [apply of_Z_non_negative, Hq |].
    destruct (Zpos m =? _); apply of_Z_non_negative; lia.
Qed.

Lemma mul_non_negative_or_nan (x y : number) :
  x = NaN \/ non_negative x -> non_negative y ->
  mul x y = NaN \/ non_negative (mul x y).
Proof.
  intros [-> | Hx] Hy; [left; destruct y; reflexivity |].
  destruct Hy as [-> | [-> | (m & e & ->)]].
  - destruct Hx as [-> | [-> | (mx & ex & ->)]];
      [right; left | left | right; left]; reflexivity.
  - destruct Hx as [-> | [-> | (mx & ex & ->)]];
      [left | right; right; left | right; right; left]; reflexivity.
  - right. apply mul_non_negative, Hx.
Qed.

Lemma guarded_non_negative (x : number) :
  x = NaN \/ non_negative x ->
  le zero (nan_to_zero x) = true /\ le zero (non_finite_to_zero x) = true.
Proof.
  intros [-> | [-> | [-> | (m & e & ->)]]]; split; reflexivity.
Qed.

Lemma floor_ceil_non_negative_or_nan (x : number) :
  x = NaN \/ non_negative x ->
  (Math_floor x = NaN \/ non_negative (Math_floor x)) /\
  (Math_ceil x = NaN \/ non_negative (Math_ceil x)).
Proof.
  intros [-> | Hx]; [split; left; reflexivity |].
  destruct (floor_ceil_non_negative x Hx). split; right; assumption.
Qed.

(** X5 ([calculations], lines 82-116 and 312-350).  On every input, in both
    variants, none of the six figures is negative (or not-a-number): each is
    at least 0; and the risk for one contract is positive exactly when the
    parsed stop loss is. *)
Theorem figures_are_not_negative (i : InstrumentKey) (slText rbText : string) :
  forall c : Calculations,
    c = Typed.calculations i slText rbText \/
    c = Untyped.calculations i slText rbText ->
    le zero (rawLotSize c) = true /\
    le zero (floorLotSize c) = true /\
    le zero (riskForFloor c) = true /\
    le zero (ceilLotSize c) = true /\
    le zero (riskForCeil c) = true /\
    le zero (riskForOneContract c) = true /\
    gt (riskForOneContract c) zero = gt (or_else (parseFloat slText) zero) zero.
Proof.
  intros c Hc.
  destruct (calculations_cases i slText rbText)
    as [(_ & Ht & Hu) | (Hs & Hr & Ht & Hu)].
  - assert (E : c = degenerate
                      (if gt (or_else (parseFloat slText) zero) zero
                       then riskPerContract_of i (or_else (parseFloat slText) zero)
                       else zero))
      by (destruct Hc as [-> | ->]; assumption).
    rewrite E. cbn [degenerate rawLotSize floorLotSize riskForFloor ceilLotSize
                    riskForCeil riskForOneContract].
    do 5 (split; [reflexivity |]).
    destruct (gt (or_else (parseFloat slText) zero) zero) eqn:Hs.
    + pose proof (riskPerContract_positive i slText Hs) as Hpos.
      split; [| exact Hpos].
      destruct (gt_zero_inv _ Hpos) as [-> | (m & e & ->)]; reflexivity.
    + split; reflexivity.
  - pose proof (riskPerContract_positive i slText Hs) as Hpos.
    pose proof (riskPerContract_non_negative i _ Hs) as Hrpc.
    set (rpc := riskPerContract_of i (or_else (parseFloat slText) zero)) in *.
    set (rb := or_else (parseFloat rbText) zero) in *.
    assert (Hraw : div rb rpc = NaN \/ non_negative (div rb rpc)).
    { destruct (raw_quotient_shape rb rpc Hr Hrpc) as [H | H];
        [left; exact H | right; apply rounded_non_negative, H]. }
    destruct (floor_ceil_non_negative_or_nan _ Hraw) as [Hfloor Hceil].
    pose proof (mul_non_negative_or_nan _ rpc Hfloor Hrpc) as Hrf.
    pose proof (mul_non_negative_or_nan _ rpc Hceil Hrpc) as Hrc.
    assert (Hone : le zero rpc = true)
      by (destruct (gt_zero_inv _ Hpos) as [-> | (m & e & ->)]; reflexivity).
    rewrite Hs.
    destruct Hc as [-> | ->]; [rewrite Ht | rewrite Hu];
      cbn [regular rawLotSize floorLotSize riskForFloor ceilLotSize riskForCeil
           riskForOneContract];
      repeat split; try assumption;
      first [apply (guarded_non_negative _ Hraw) | apply (guarded_non_negative _ Hfloor)
            | apply (guarded_non_negative _ Hrf) | apply (guarded_non_negative _ Hceil)
            | apply (guarded_non_negative _ Hrc)].
Qed.

Lemma figures_are_not_negative_witness :
  le zero (rawLotSize (Untyped.calculations MES "-4" "250")) = true /\
  le zero (riskForFloor (Typed.calculations GC "0.7" "1200")) = true /\
  gt (riskForOneContract (Typed.calculations GC "0.7" "1200")) zero = true.
Proof.
  pose proof (figures_are_not_negative MES "-4" "250" _ (or_intror eq_refl))
    as (H1 & _).
  pose proof (figures_are_not_negative GC "0.7" "1200" _ (or_introl eq_refl))
    as (_ & _ & H3 & _ & _ & _ & H7).
  split; [exact H1 | split; [exact H3 |]].
  rewrite H7. reflexivity.
Defined.

(** ** A floored lot size is positive exactly from 1 up *)

Lemma le_finite_false (m1 m2 : positive) (e1 e2 : Z) :
  e2 < e1 -> le (S754_finite false m1 e1) (S754_finite false m2 e2) = false.
Proof.
  intros H. unfold le, SFleb, SFcompare.
  destruct (Z.compare_spec e1 e2) as [E | E | E]; [lia | lia | reflexivity].
Qed.

Lemma floor_positive_iff (m : positive) (e : Z) :
  bounded prec emax m e = true ->
  gt (Math_floor (S754_finite false m e)) zero = le one (S754_finite false m e).
Proof.
  intros Hb. destruct (bounded_inv m e Hb) as [Hshape _].
  pose proof (Zdigits2_bounds (Zpos m) ltac:(lia)) as [Hmlo Hmhi].
  pose proof (Zdigits2_pos m) as Hd1.
  change one with (S754_finite false 4503599627370496 (-52)).
  cbn [Math_floor].
  destruct (0 <=? e) eqn:Hsign.
  { apply Z.leb_le in Hsign. rewrite le_finite by (left; lia). reflexivity. }
  apply Z.leb_gt in Hsign.
  rewrite Z.shiftr_div_pow2 by lia.
  pose proof (pow2_pos (- e) ltac:(lia)) as HK.
  assert (HKdef : 2 ^ (- e) = 2 ^ (- e)) by reflexivity.
  set (K := 2 ^ (- e)) in HK, HKdef at 1 |- *.
  pose proof (Z.div_mod (Zpos m) K ltac:(lia)) as Hdm.
  pose proof (Z.mod_pos_bound (Zpos m) K HK) as Hr.
  assert (Hq0 : 0 <= Zpos m / K) by (apply Z.div_pos; lia).
  set (q := Zpos m / K) in *. set (r := Zpos m mod K) in *.
  clearbody q r K.
  destruct (Z.eq_dec q 0) as [Eq | Nq].
  - rewrite Eq. change (of_Z false 0) with zero.
    assert (Hlt : Zpos m < K) by (rewrite Eq in Hdm; lia).
    assert (He : e < -52).
    { destruct (Z_lt_le_dec e (-52)) as [Hl | Hg]; [exact Hl |].
      destruct Hshape as [[Hd _] | [He _]]; [| lia].
      rewrite Hd in Hmlo. change (53 - 1) with 52 in Hmlo.
      pose proof (pow2_le (- e) 52 ltac:(lia)) as H. rewrite <- HKdef in H. lia. }
    rewrite le_finite_false by exact He. reflexivity.
  - assert (HKm : K <= Zpos m) by (clear - Hdm Hr Hq0 Nq HK; nia).
    assert (Hd : Zdigits2 (Zpos m) = 53).
    { destruct Hshape as [[Hd _] | [He Hd]]; [exact Hd |].
      exfalso. pose proof (pow2_le (Zdigits2 (Zpos m)) (- e) ltac:(lia)) as H.
      rewrite <- HKdef in H. lia. }
    rewrite Hd in Hmlo, Hmhi. change (53 - 1) with 52 in Hmlo.
    assert (He : -52 <= e).
    { assert (- e < 53); [| lia]. apply pow2_lt_inv; lia. }
    rewrite le_finite.
    + assert (Hq : 0 <= q) by lia.
      destruct (of_Z_non_negative q Hq) as [H | [H | (mf & ef & H)]];
        rewrite H; try reflexivity.
      exfalso. destruct q as [| pq | pq]; try lia.
      pose proof (Zdigits2_le (Zpos pq) (Zpos m) ltac:(nia)) as Hdq.
      pose proof (Zdigits2_pos pq) as Hdq1.
      destruct (binary_normalize_exact pq 0 ltac:(lia) ltac:(lia)) as (mz & Hn & _).
      unfold of_Z in H. rewrite Hn in H. discriminate H.
    + destruct (Z.eq_dec e (-52)) as [-> | Hne]; [right | left; lia].
      split; [reflexivity |]. change (Zpos 4503599627370496) with (2 ^ 52). exact Hmlo.
Qed.

Lemma guarded_floor_positive (x : number) :
  quotient_shape x ->
  gt (nan_to_zero (Math_floor x)) zero = le one (nan_to_zero x) /\
  gt (non_finite_to_zero (Math_floor x)) zero = le one (non_finite_to_zero x).
Proof.
  intros [-> | [-> | [-> | (m & e & -> & Hb)]]]; try (split; reflexivity).
  destruct (bracket m e Hb) as (Hf & _).
  destruct (guards_keep_finite _ Hf) as [-> ->].
  destruct (guards_keep_finite (S754_finite false m e) eq_refl) as [-> ->].
  split; apply floor_positive_iff, Hb.
Qed.

Lemma floor_positive_from_one (i : InstrumentKey) (slText rbText : string) :
  forall c : Calculations,
    c = Typed.calculations i slText rbText \/
    c = Untyped.calculations i slText rbText ->
    gt (floorLotSize c) zero = le one (rawLotSize c).
Proof.
  intros c Hc.
  destruct (calculations_cases i slText rbText)
    as [(_ & Ht & Hu) | (Hs & Hr & Ht & Hu)].
  - destruct Hc as [-> | ->]; [rewrite Ht | rewrite Hu]; reflexivity.
  - pose proof (guarded_floor_positive _
                  (raw_quotient_shape _ _ Hr (riskPerContract_non_negative i _ Hs)))
      as [Hty Hun].
    destruct Hc as [-> | ->]; [rewrite Ht | rewrite Hu];
      cbn [regular rawLotSize floorLotSize]; assumption.
Qed.

(** X6 (the result rows, lines 207-252, over [calculations]).  Which rows
    are displayed is decided by the raw lot size alone: when it is at least
    1 the rows are the raw size, the floor size and its risk, followed by
    the ceiling size and its risk when the ceiling is above the floor; when
    it is below 1 the rows are the raw size and "Min. Risk for 1 Contract",
    and nothing else.  The source tests [floorLotSize > 0]. *)
Theorem rows_shown (i : InstrumentKey) (slText rbText : string) :
  forall c : Calculations,
    c = Typed.calculations i slText rbText \/
    c = Untyped.calculations i slText rbText ->
    map View.label (View.results c) =
    if le one (rawLotSize c) then
      "Real Contract Size" :: "Fixed Size (Floor)" ::
      ("Risk for " ++ Number_toString (floorLotSize c) ++ " contract(s)") ::
      (if lt (floorLotSize c) (ceilLotSize c) then
         ["Fixed Size (Ceil)";
          "Risk for " ++ Number_toString (ceilLotSize c) ++ " contract(s)"]
       else [])
    else ["Real Contract Size"; "Min. Risk for 1 Contract"].
Proof.
  intros c Hc. rewrite <- (floor_positive_from_one i slText rbText c Hc).
  unfold View.results.
  destruct (gt (floorLotSize c) zero); [| reflexivity].
  destruct (lt (floorLotSize c) (ceilLotSize c)); reflexivity.
Qed.

Lemma rows_shown_witness :
  map View.label (View.results (Typed.calculations NQ "10" "100")) =
    ["Real Contract Size"; "Min. Risk for 1 Contract"] /\
  map View.label (View.results (Typed.calculations NQ "10" "500")) =
    ["Real Contract Size"; "Fixed Size (Floor)"; "Risk for 2 contract(s)";
     "Fixed Size (Ceil)"; "Risk for 3 contract(s)"].
Proof.
  split.
  - rewrite (rows_shown NQ "10" "100" _ (or_introl eq_refl)). vm_compute. reflexivity.
  - rewrite (rows_shown NQ "10" "500" _ (or_introl eq_refl)). vm_compute. reflexivity.
Defined.

(** X7 (the result rows, lines 207-252, over the first return of
    [calculations], lines 92-101).  When the parsed stop loss or the parsed
    risk is not positive, two rows are displayed, in both variants: "Real
    Contract Size" with the text 0.00, and "Min. Risk for 1 Contract" with
    the risk of one contract printed with two decimals (of 0 when the stop
    loss is not positive). *)
Theorem degenerate_rows (i : InstrumentKey) (slText rbText : string) :
  let sl := or_else (parseFloat slText) zero in
  let rb := or_else (parseFloat rbText) zero in
  le sl zero = true \/ le rb zero = true ->
  forall c : Calculations,
    c = Typed.calculations i slText rbText \/
    c = Untyped.calculations i slText rbText ->
    View.results c =
    [ View.ResultDisplay "Real Contract Size" "0.00"
        (Some " contracts") (Some "text-blue-400");
      View.ResultDisplay "Min. Risk for 1 Contract"
        ("$" ++ Number_toFixed
                  (if gt sl zero then riskPerContract_of i sl else zero) 2)
        None (Some "text-red-500") ].
Proof.
  intros sl rb Hdeg c Hc.
  assert (Hor : le sl zero || le rb zero = true) by (apply orb_true_iff; exact Hdeg).
  destruct (calculations_cases i slText rbText)
    as [(_ & Ht & Hu) | (Hs & Hr & _)].
  - fold sl in Ht, Hu. destruct Hc as [-> | ->]; [rewrite Ht | rewrite Hu]; reflexivity.
  - fold sl in Hs. fold rb in Hr.
    rewrite (gt_zero_not_le _ Hs), (gt_zero_not_le _ Hr) in Hor. discriminate Hor.
Qed.

Lemma degenerate_rows_witness :
  le (or_else (parseFloat "") zero) zero = true /\
  View.results (Typed.calculations ES "2" "") =
  [ View.ResultDisplay "Real Contract Size" "0.00"
      (Some " contracts") (Some "text-blue-400");
    View.ResultDisplay "Min. Risk for 1 Contract" "$100.00"
      None (Some "text-red-500") ].
Proof.
  split; [reflexivity |].
  rewrite (degenerate_rows ES "2" "" (or_intror eq_refl) _ (or_introl eq_refl)).
  vm_compute. reflexivity.
Defined.
